(** * pmatch: the word-level diff/merge engine and its reconciliation controller

    A shallow embedding of
    - [frontend/src/lib/diff.ts]                       (module [Diff]),
    - [app/workspace/components/inline-diff-resolver.tsx] (module [Resolver]),
    - the [Contact] component that drives three resolvers  (module [Contact]),
    followed by the properties of the engine. *)

From Stdlib Require Import NArith Ascii String.
From stdpp Require Import base decidable numbers option list gmap.

Open Scope nat_scope.

(** ** JavaScript strings

    A JavaScript string is a sequence of UTF-16 code units; a code unit is
    modelled by its number.  [===] on strings is equality of the sequences,
    [+] is [++], [.length] is [length] and the empty string is the only falsy
    one. *)

Abbreviation jsstring := (list N).

(** A string literal of the source (ASCII only). *)
Definition str (s : string) : jsstring := N_of_ascii <$> list_ascii_of_string s.

(** The class [\s] of a JavaScript regular expression: WhiteSpace and
    LineTerminator code points. *)
Definition is_space (c : N) : bool :=
  bool_decide (c ∈ [9; 10; 11; 12; 13; 32; 160; 5760; 8232; 8233; 8239; 8287;
                    12288; 65279]%N)
  || ((8192 <=? c)%N && (c <=? 8202)%N).

Module Diff.

(** *** [tokenize]: [input.match(/(\s+|[^\s]+)/g) ?? []]

    The global match walks the input from left to right; at the start of a
    match the first code unit chooses the alternative ([\s+] or [[^\s]+]) and
    the greedy [+] extends the match as long as the class stays the same.
    [scan ws tok s] is the matcher in the middle of a match: [tok] is what the
    current match holds so far, [ws] its class and [s] the input left. *)

Fixpoint scan (ws : bool) (tok : jsstring) (s : jsstring) : list jsstring :=
  match s with
  | [] => [tok]
  | c :: rest =>
      if bool_decide (is_space c = ws) then scan ws (tok ++ [c]) rest
      else tok :: scan (is_space c) [c] rest
  end.

Definition tokenize (input : jsstring) : list jsstring :=
  match input with
  | [] => []
  | c :: rest => scan (is_space c) [c] rest
  end.

(** *** Segments *)

Inductive SegType := equal | added | removed.

#[global] Instance SegType_eq_dec : EqDecision SegType.
Proof. solve_decision. Defined.

Record DiffSegment := { value : jsstring; type : SegType }.

#[global] Instance DiffSegment_eq_dec : EqDecision DiffSegment.
Proof. solve_decision. Defined.

(** *** [lcsTable]

    [dp] is an (m+1) x (n+1) array of numbers, filled with zeros and then
    overwritten cell by cell, rows from [m-1] down to [0] and, in a row,
    columns from [n-1] down to [0].  ([foldr] over [seq 0 n] applies the body
    to [n-1] first and to [0] last.) *)

Definition dp_get (dp : list (list nat)) (i j : nat) : nat :=
  default 0 (dp !! i ≫= (.!! j)).

Definition dp_set (dp : list (list nat)) (i j v : nat) : list (list nat) :=
  alter (<[j := v]>) i dp.

Definition lcs_cell (a b : list jsstring) (i j : nat) (dp : list (list nat))
  : list (list nat) :=
  if bool_decide (a !! i = b !! j)
  then dp_set dp i j (dp_get dp (i + 1) (j + 1) + 1)
  else dp_set dp i j (dp_get dp (i + 1) j `max` dp_get dp i (j + 1)).

Definition lcsTable (a b : list jsstring) : list (list nat) :=
  let m := length a in
  let n := length b in
  let dp := replicate (m + 1) (replicate (n + 1) 0) in
  foldr (λ i dp, foldr (λ j dp, lcs_cell a b i j dp) dp (seq 0 n)) dp (seq 0 m).

(** *** [push]: append to [segments], merging into the last segment when it
    has the same type; an empty value is dropped. *)

Definition push (segments : list DiffSegment) (ty : SegType) (v : jsstring)
  : list DiffSegment :=
  if bool_decide (v = []) then segments
  else
    match last segments with
    | Some l =>
        if bool_decide (type l = ty)
        then alter (λ s, {| value := value s ++ v; type := type s |})
                   (length segments - 1) segments
        else segments ++ [{| value := v; type := ty |}]
    | None => segments ++ [{| value := v; type := ty |}]
    end.

(** *** The alignment walk: the first [while] loop of [diffWords].

    Every iteration advances [i] or [j], so [length a + length b] iterations
    are enough ([walk_exit] below); the state is returned when the loop
    condition fails. *)

Fixpoint walk (fuel : nat) (a b : list jsstring) (dp : list (list nat))
    (i j : nat) (segments : list DiffSegment) : nat * nat * list DiffSegment :=
  match fuel with
  | 0 => (i, j, segments)
  | S fuel' =>
      if bool_decide (i < length a) && bool_decide (j < length b) then
        if bool_decide (a !! i = b !! j) then
          walk fuel' a b dp (i + 1) (j + 1) (push segments equal (a !!! i))
        else if bool_decide (dp_get dp i (j + 1) ≤ dp_get dp (i + 1) j) then
          walk fuel' a b dp (i + 1) j (push segments removed (a !!! i))
        else
          walk fuel' a b dp i (j + 1) (push segments added (b !!! j))
      else (i, j, segments)
  end.

(** The two trailing loops push what is left of [a], then what is left of
    [b]. *)
Definition diffWords (oldText newText : jsstring) : list DiffSegment :=
  let a := tokenize oldText in
  let b := tokenize newText in
  let dp := lcsTable a b in
  let '(i, j, segments) := walk (length a + length b) a b dp 0 0 [] in
  let segments := foldl (λ segs t, push segs removed t) segments (drop i a) in
  foldl (λ segs t, push segs added t) segments (drop j b).

End Diff.

Module Resolver.
Import Diff.

(** *** Operations *)

Inductive Op :=
| EqualOp (value : jsstring)
| ChangeOp (before after : jsstring).

#[global] Instance Op_eq_dec : EqDecision Op.
Proof. solve_decision. Defined.

(** *** [groupOps]

    The cursor [i] into [segs] is represented by the segments from [i] on.
    [collect ty acc segs] is an inner loop
    [while (i < segs.length && segs[i].type === ty) { acc += segs[i].value; i++ }]. *)

Fixpoint collect (ty : SegType) (acc : jsstring) (segs : list DiffSegment)
  : jsstring * list DiffSegment :=
  match segs with
  | s :: rest =>
      if bool_decide (type s = ty) then collect ty (acc ++ value s) rest
      else (acc, segs)
  | [] => (acc, [])
  end.

(** The outer loop.  An iteration consumes at least one segment, so
    [length segs] iterations are enough ([group_fuel] below). *)
Fixpoint group (fuel : nat) (segs : list DiffSegment) (ops : list Op) : list Op :=
  match fuel with
  | 0 => ops
  | S fuel' =>
      match segs with
      | [] => ops
      | s :: rest =>
          if bool_decide (type s = equal) then
            group fuel' rest (ops ++ [EqualOp (value s)])
          else
            let '(removedText, segs1) := collect removed [] segs in
            let '(addedText, segs2) := collect added [] segs1 in
            group fuel' segs2
              (if bool_decide (0 < length removedText)
                  || bool_decide (0 < length addedText)
               then ops ++ [ChangeOp removedText addedText]
               else ops)
      end
  end.

Definition groupOps (before after : jsstring) : list Op :=
  let segs := diffWords before after in
  group (length segs) segs [].

(** *** Decisions

    The decision store is a JavaScript object keyed by operation index. *)

Inductive Decision := pending | accept | decline.

#[global] Instance Decision_eq_dec : EqDecision Decision.
Proof. solve_decision. Defined.

(** The parameter type ['accept' | 'decline'] of [setDecision]. *)
Inductive Verdict := Accept | Decline.

Definition decision_of (v : Verdict) : Decision :=
  match v with Accept => accept | Decline => decline end.

(** [ops.map((op, idx) => op.type === 'change' ? idx : -1).filter(n => n !== -1)];
    the sentinel [-1] is [None]. *)
Definition changeIdxs (ops : list Op) : list nat :=
  omap id (imap (λ idx op, match op with
                           | ChangeOp _ _ => Some idx
                           | EqualOp _ => None
                           end) ops).

(** The initialiser of [useState]. *)
Definition initDecisions (ops : list Op) : gmap nat Decision :=
  foldl (λ init i, <[i := pending]> init) ∅ (changeIdxs ops).

(** *** [commit]: the merged text and the resolution flag handed to
    [onChange]. *)

Definition merge_op (next : gmap nat Decision) (idx : nat) (op : Op) : jsstring :=
  match op with
  | EqualOp v => v
  | ChangeOp before after =>
      match next !! idx with
      | None | Some pending => before
      | Some d => if bool_decide (d = accept) then after else before
      end
  end.

Definition commit (ops : list Op) (next : gmap nat Decision) : jsstring * bool :=
  let merged := concat (imap (merge_op next) ops) in
  let allResolved := bool_decide (map_Forall (λ _ v, v ≠ pending) next) in
  (merged, allResolved).

(** [setDecision]: the new store, and what [commit] reports for it. *)
Definition setDecision (ops : list Op) (prev : gmap nat Decision)
    (idx : nat) (decision : Verdict) : gmap nat Decision * (jsstring * bool) :=
  let next := <[idx := decision_of decision]> prev in
  (next, commit ops next).

(** *** Rendering *)

(** [op.after.match(re)], where [re] is a group of zero or more [\s]
    followed by [$]: the leftmost position from which the rest
    of the text is white space up to the end; the match never fails. *)
Fixpoint trailing_ws (s : jsstring) : jsstring :=
  if forallb is_space s then s
  else match s with
       | [] => []
       | _ :: rest => trailing_ws rest
       end.

(** [clipMiddle] with its default [max = 60]; [8230] is the ellipsis and
    [10] the line feed. *)
Definition clipMiddle (text : jsstring) : jsstring :=
  if bool_decide (length text ≤ 60) && negb (bool_decide (10%N ∈ text)) then text
  else take 30 text ++ [8230%N] ++ drop (length text - 30) text.

(** The elements rendered for an operation. *)
Inductive Span :=
| Plain (text : jsstring)            (* <span>, no class *)
| Padded (text : jsstring)           (* <span className="px-1"> *)
| Struck (text title : jsstring)     (* red, line-through *)
| Marked (text : jsstring)           (* green marker *)
| Buttons (idx : nat).               (* the accept and the decline button *)

#[global] Instance Span_eq_dec : EqDecision Span.
Proof. solve_decision. Defined.

(** [cond && <element>] *)
Definition when (text : jsstring) (s : Span) : list Span :=
  if bool_decide (text = []) then [] else [s].

Definition render_op (decisions : gmap nat Decision) (idx : nat) (op : Op)
  : list Span :=
  match op with
  | EqualOp v => [Plain v]
  | ChangeOp before after =>
      let trailing := trailing_ws after in
      let addCore := take (length after - length trailing) after in
      match decisions !! idx with
      | Some accept => [Padded addCore] ++ when trailing (Plain trailing)
      | Some decline => [Padded before]
      | _ =>
          when before (Struck (clipMiddle before) before)
          ++ when addCore (Marked addCore)
          ++ when trailing (Plain trailing)
          ++ [Buttons idx]
      end
  end.

Definition render (ops : list Op) (decisions : gmap nat Decision)
  : list (list Span) :=
  imap (render_op decisions) ops.

(** The text an element shows. *)
Definition span_text (s : Span) : jsstring :=
  match s with
  | Plain t | Padded t | Struck t _ | Marked t => t
  | Buttons _ => []
  end.

(** *** A mounted resolver

    [ops] is memoised on [(before, after)]; [decisions] is component state,
    initialised when the component mounts and kept across renders. *)

Record Instance := {
  before : jsstring;
  after : jsstring;
  ops : list Op;
  decisions : gmap nat Decision
}.

Definition mount (before after : jsstring) : Instance :=
  let ops := groupOps before after in
  {| before := before; after := after; ops := ops;
     decisions := initDecisions ops |}.

Definition rerender (inst : Instance) (before' after' : jsstring) : Instance :=
  {| before := before'; after := after';
     ops := if bool_decide (before inst = before' ∧ after inst = after')
            then ops inst else groupOps before' after';
     decisions := decisions inst |}.

End Resolver.

Module Contact.

(** *** Tracked fields

    [ContactData] and the status object both have the three properties
    [email], [subject] and [text]. *)

Inductive Field := Email | Subject | Text.

#[global] Instance Field_eq_dec : EqDecision Field.
Proof. solve_decision. Defined.

Module PerField.
Record t (A : Type) := mk { email : A; subject : A; text : A }.
Arguments mk {A}.
Arguments email {A}.
Arguments subject {A}.
Arguments text {A}.

Definition get {A} (f : Field) (o : t A) : A :=
  match f with Email => email o | Subject => subject o | Text => text o end.

(** [{ ...o, f: v }] *)
Definition set {A} (f : Field) (v : A) (o : t A) : t A :=
  match f with
  | Email => mk v (subject o) (text o)
  | Subject => mk (email o) v (text o)
  | Text => mk (email o) (subject o) v
  end.

(** [Object.values(o)] *)
Definition values {A} (o : t A) : list A := [email o; subject o; text o].
End PerField.

Abbreviation ContactData := (PerField.t jsstring).

Inductive FieldStatus := unchanged | pending | applied | dismissed.

#[global] Instance FieldStatus_eq_dec : EqDecision FieldStatus.
Proof. solve_decision. Defined.

(** *** The state of the component (its five [useState] cells) *)

Record State := {
  recipient : jsstring;
  subject : jsstring;
  body : jsstring;
  pendingChanges : option ContactData;
  status : PerField.t FieldStatus
}.

Definition initial : State :=
  {| recipient := []; subject := []; body := []; pendingChanges := None;
     status := PerField.mk unchanged unchanged unchanged |}.

(** The current value of a field, and its setter ([setRecipient],
    [setSubject], [setBody]). *)
Definition value_of (f : Field) (s : State) : jsstring :=
  match f with Email => recipient s | Subject => subject s | Text => body s end.

Definition set_value (f : Field) (v : jsstring) (s : State) : State :=
  match f with
  | Email => {| recipient := v; subject := subject s; body := body s;
                pendingChanges := pendingChanges s; status := status s |}
  | Subject => {| recipient := recipient s; subject := v; body := body s;
                  pendingChanges := pendingChanges s; status := status s |}
  | Text => {| recipient := recipient s; subject := subject s; body := v;
               pendingChanges := pendingChanges s; status := status s |}
  end.

Definition setStatus (st : PerField.t FieldStatus) (s : State) : State :=
  {| recipient := recipient s; subject := subject s; body := body s;
     pendingChanges := pendingChanges s; status := st |}.

Definition setPendingChanges (pc : option ContactData) (s : State) : State :=
  {| recipient := recipient s; subject := subject s; body := body s;
     pendingChanges := pc; status := status s |}.

(** *** The effect on [incomingContactData] *)

Definition incoming (data : ContactData) (s : State) : State :=
  setStatus
    (PerField.mk
       (if bool_decide (recipient s ≠ PerField.email data) then pending else unchanged)
       (if bool_decide (subject s ≠ PerField.subject data) then pending else unchanged)
       (if bool_decide (body s ≠ PerField.text data) then pending else unchanged))
    (setPendingChanges (Some data) s).

(** *** [resolveIfDone] *)

Definition anyPending (st : PerField.t FieldStatus) : bool :=
  existsb (λ x, bool_decide (x = pending)) (PerField.values st).

Definition resolveIfDone (nextStatus : PerField.t FieldStatus) (s : State) : State :=
  if negb (anyPending nextStatus) then setPendingChanges None s else s.

(** *** [acceptAll] and [declineAll]

    [acceptAll] also hands the proposal to [onContactDataUpdate]; the parent
    stores the very object it had delivered, so the effect does not run
    again. *)

Definition acceptAll (s : State) : State :=
  match pendingChanges s with
  | None => s
  | Some pc =>
      {| recipient := PerField.email pc;
         subject := PerField.subject pc;
         body := PerField.text pc;
         pendingChanges := None;
         status := PerField.mk applied applied applied |}
  end.

Definition declineAll (s : State) : State :=
  match pendingChanges s with
  | None => s
  | Some _ =>
      setPendingChanges None (setStatus (PerField.mk dismissed dismissed dismissed) s)
  end.

(** *** The [onChange] handler given to the resolver of field [f]

    The three handlers of the source differ only in the field they write;
    [pc] is the [pendingChanges] of the render that created the handler. *)

Definition onChange (f : Field) (pc : ContactData) (merged : jsstring)
    (allResolved : bool) (s : State) : State :=
  let s := set_value f merged s in
  let nextState :=
    if allResolved
    then if bool_decide (merged = PerField.get f pc) then applied else dismissed
    else pending in
  let next := PerField.set f nextState (status s) in
  let s := if bool_decide (nextState ≠ pending) then resolveIfDone next s else s in
  setStatus next s.

(** *** Rendering: which resolvers are mounted

    The resolver of a field is rendered, in place of the plain input, while a
    proposal is stored and the field is pending.  Its [key] is built from the
    current and the proposed value; React keeps a component instance (and its
    state) from one render to the next when the key is the same, and mounts a
    fresh one otherwise. *)

Definition key_of (f : Field) (current proposed : jsstring) : jsstring :=
  str (match f with
       | Email => "email-" | Subject => "subject-" | Text => "text-"
       end) ++ current ++ str "|" ++ proposed.

(** The resolver element of field [f]: its key and its props. *)
Definition element (f : Field) (s : State) : option (jsstring * jsstring * jsstring) :=
  match pendingChanges s with
  | Some pc =>
      if bool_decide (PerField.get f (status s) = pending)
      then Some (key_of f (value_of f s) (PerField.get f pc),
                 value_of f s, PerField.get f pc)
      else None
  | None => None
  end.

Definition reconcile (old : option (jsstring * Resolver.Instance))
    (new : option (jsstring * jsstring * jsstring))
  : option (jsstring * Resolver.Instance) :=
  match new with
  | None => None
  | Some (k, b, a) =>
      match old with
      | Some (k0, inst) =>
          if bool_decide (k0 = k) then Some (k, Resolver.rerender inst b a)
          else Some (k, Resolver.mount b a)
      | None => Some (k, Resolver.mount b a)
      end
  end.

(** *** The component with its mounted resolvers *)

Record App := {
  hooks : State;
  resolvers : PerField.t (option (jsstring * Resolver.Instance))
}.

Definition render (s : State)
    (old : PerField.t (option (jsstring * Resolver.Instance))) : App :=
  {| hooks := s;
     resolvers :=
       PerField.mk (reconcile (PerField.email old) (element Email s))
                   (reconcile (PerField.subject old) (element Subject s))
                   (reconcile (PerField.text old) (element Text s)) |}.

Definition start : App :=
  {| hooks := initial; resolvers := PerField.mk None None None |}.

(** What the user and the collaborators can do.  Each event runs its
    handler to the end and is followed by a render. *)
Inductive Event :=
| Incoming (data : ContactData)               (* a new proposal is delivered *)
| Decide (f : Field) (idx : nat) (v : Resolver.Verdict)  (* a button of op idx *)
| AcceptAll
| DeclineAll
| Edit (f : Field) (text : jsstring).         (* typing in the plain input *)

(** The accept and decline buttons of operation [idx] are rendered for a
    change-op that is not decided yet. *)
Definition has_buttons (inst : Resolver.Instance) (idx : nat) : bool :=
  match Resolver.ops inst !! idx with
  | Some (Resolver.ChangeOp _ _) =>
      match Resolver.decisions inst !! idx with
      | Some Resolver.accept | Some Resolver.decline => false
      | _ => true
      end
  | _ => false
  end.

Definition with_decisions (d : gmap nat Resolver.Decision)
    (r : option (jsstring * Resolver.Instance)) : option (jsstring * Resolver.Instance) :=
  match r with
  | Some (k, inst) =>
      Some (k, {| Resolver.before := Resolver.before inst;
                  Resolver.after := Resolver.after inst;
                  Resolver.ops := Resolver.ops inst;
                  Resolver.decisions := d |})
  | None => None
  end.

(** [None]: the event cannot happen in this state (its control is not
    rendered). *)
Definition step (app : App) (e : Event) : option App :=
  match e with
  | Incoming data => Some (render (incoming data (hooks app)) (resolvers app))
  | Decide f idx v =>
      match PerField.get f (resolvers app), pendingChanges (hooks app) with
      | Some (k, inst), Some pc =>
          if has_buttons inst idx then
            let '(next, (merged, allResolved)) :=
              Resolver.setDecision (Resolver.ops inst) (Resolver.decisions inst) idx v in
            Some (render (onChange f pc merged allResolved (hooks app))
                         (PerField.set f (with_decisions next (PerField.get f (resolvers app)))
                                       (resolvers app)))
          else None
      | _, _ => None
      end
  | AcceptAll =>
      if bool_decide (pendingChanges (hooks app) = None) then None
      else Some (render (acceptAll (hooks app)) (resolvers app))
  | DeclineAll =>
      if bool_decide (pendingChanges (hooks app) = None) then None
      else Some (render (declineAll (hooks app)) (resolvers app))
  | Edit f text =>
      match element f (hooks app) with
      | None => Some (render (set_value f text (hooks app)) (resolvers app))
      | Some _ => None
      end
  end.

(** The states the component can be in. *)
Inductive reachable : App → Prop :=
| reachable_start : reachable start
| reachable_step app e app' :
    reachable app → step app e = Some app' → reachable app'.

(** Running a list of events from a state. *)
Fixpoint run (app : App) (es : list Event) : option App :=
  match es with
  | [] => Some app
  | e :: es' => match step app e with Some app' => run app' es' | None => None end
  end.

End Contact.

(** ** Projections used to state the properties *)

Module Proj.
Import Diff Resolver.

(** What a segment contributes to the old text and to the new text. *)
Definition seg_before (s : DiffSegment) : jsstring :=
  match type s with added => [] | _ => value s end.

Definition seg_after (s : DiffSegment) : jsstring :=
  match type s with removed => [] | _ => value s end.

Definition segs_before (segs : list DiffSegment) : jsstring :=
  concat (seg_before <$> segs).

Definition segs_after (segs : list DiffSegment) : jsstring :=
  concat (seg_after <$> segs).

(** The [before]-side and the [after]-side of an operation. *)
Definition op_before (op : Op) : jsstring :=
  match op with EqualOp v => v | ChangeOp b _ => b end.

Definition op_after (op : Op) : jsstring :=
  match op with EqualOp v => v | ChangeOp _ a => a end.

Definition is_equal_op (op : Op) : bool :=
  match op with EqualOp _ => true | ChangeOp _ _ => false end.

(** The segment list that holds [v] as one segment of type [ty]. *)
Definition one_seg (ty : SegType) (v : jsstring) : list DiffSegment :=
  if bool_decide (v = []) then [] else [{| value := v; type := ty |}].

(** The length of a longest common subsequence, by the usual recursion on
    the two sequences: what a cell of [lcsTable] is meant to hold. *)
Fixpoint lcs_length (a : list jsstring) : list jsstring → nat :=
  fix inner (b : list jsstring) : nat :=
    match a, b with
    | x :: a', y :: b' =>
        if bool_decide (x = y) then S (lcs_length a' b')
        else lcs_length a' b `max` inner b'
    | _, _ => 0
    end.

(** The table has [m+1] rows of [n+1] cells. *)
Definition table_shape (m n : nat) (dp : list (list nat)) : Prop :=
  length dp = m + 1 ∧ ∀ i row, dp !! i = Some row → length row = n + 1.

(** Cell [(i, j)] holds the score of the suffixes of [a] from [i] and of
    [b] from [j]. *)
Definition cell_ok (a b : list jsstring) (dp : list (list nat)) (i j : nat) : Prop :=
  dp_get dp i j = lcs_length (drop i a) (drop j b).

(** A run of decisions, each made through [setDecision]. *)
Definition decide_all (ops : list Op) (prev : gmap nat Decision)
    (ds : list (nat * Verdict)) : gmap nat Decision :=
  foldl (λ m d, (setDecision ops m d.1 d.2).1) prev ds.

(** The text shown for an operation. *)
Definition op_text (decisions : gmap nat Decision) (idx : nat) (op : Op) : jsstring :=
  concat (span_text <$> render_op decisions idx op).

(** The events that resolve something: a decision on one operation and the
    two bulk operations. *)
Definition resolving (e : Contact.Event) : bool :=
  match e with
  | Contact.Decide _ _ _ | Contact.AcceptAll | Contact.DeclineAll => true
  | Contact.Incoming _ | Contact.Edit _ _ => false
  end.

(** A mounted resolver whose operation list is the one of its own pair of
    texts and whose decision store has exactly the indices of the change-ops
    of that list. *)
Definition instance_ok (inst : Instance) : Prop :=
  ops inst = groupOps (before inst) (after inst)
  ∧ ∀ idx, is_Some (decisions inst !! idx) ↔ idx ∈ changeIdxs (ops inst).

(** The resolver of field [f] is mounted exactly when the component renders
    it, under the key and with the texts the component gives it. *)
Definition consistent (f : Contact.Field) (s : Contact.State)
    (r : option (jsstring * Instance)) : Prop :=
  match r with
  | Some (k, inst) =>
      Contact.element f s = Some (k, before inst, after inst) ∧ instance_ok inst
  | None => Contact.element f s = None
  end.

Definition app_consistent (app : Contact.App) : Prop :=
  ∀ f, consistent f (Contact.hooks app)
                  (Contact.PerField.get f (Contact.resolvers app)).

(** [t] is a non-empty run of code units that are all white space
    ([ws = true]) or all not white space ([ws = false]). *)
Definition tok_class (ws : bool) (t : jsstring) : Prop :=
  t ≠ [] ∧ ∀ c, c ∈ t → is_space c = ws.

(** A list of runs whose classes alternate, starting with class [ws]. *)
Fixpoint runs (ws : bool) (toks : list jsstring) : Prop :=
  match toks with
  | [] => True
  | t :: rest => tok_class ws t ∧ runs (negb ws) rest
  end.

(** Every two neighbours of a list are related by [R]. *)
Definition adjacent {A} (R : A → A → Prop) (l : list A) : Prop :=
  ∀ i x y, l !! i = Some x → l !! S i = Some y → R x y.

(** The text of the [equal] segments. *)
Definition equal_text (segs : list DiffSegment) : jsstring :=
  concat (value <$> filter (λ s, type s = equal) segs).

(** Relations between neighbouring segments and neighbouring operations. *)
Definition types_differ (s1 s2 : DiffSegment) : Prop := type s1 ≠ type s2.

Definition not_added_then_removed (s1 s2 : DiffSegment) : Prop :=
  ¬ (type s1 = added ∧ type s2 = removed).

Definition kinds_differ (o1 o2 : Op) : Prop := is_equal_op o1 ≠ is_equal_op o2.

(** An operation that holds some text. *)
Definition op_nonempty (op : Op) : Prop :=
  match op with
  | EqualOp v => v ≠ []
  | ChangeOp b a => b ≠ [] ∨ a ≠ []
  end.

(** A resolver that still has something to decide, if it has any
    change-op. *)
Definition undecided (inst : Instance) : Prop :=
  changeIdxs (ops inst) ≠ [] → (commit (ops inst) (decisions inst)).2 = false.

End Proj.

Import Diff Resolver Proj.

(** ** The tokenizer *)

Lemma scan_concat ws tok s : concat (scan ws tok s) = tok ++ s.
Proof.
  revert ws tok. induction s as [|c s IH]; intros ws tok; simpl.
  - by rewrite !app_nil_r.
  - case_bool_decide; simpl; rewrite IH; by rewrite <- ?app_assoc.
Qed.

Lemma tokenize_concat s : concat (tokenize s) = s.
Proof. destruct s as [|c s]; [done|]. simpl. by rewrite scan_concat. Qed.

(** ** [push] *)

Lemma push_last_alter (l : list DiffSegment) x f :
  alter f (length (l ++ [x]) - 1) (l ++ [x]) = l ++ [f x].
Proof.
  rewrite length_app. simpl.
  replace (length l + 1 - 1) with (length l + 0) by lia.
  by rewrite alter_app_r.
Qed.

Lemma push_cases segs ty v :
  v ≠ [] →
  (∃ l x, segs = l ++ [x] ∧ type x = ty
          ∧ push segs ty v = l ++ [{| value := value x ++ v; type := ty |}])
  ∨ push segs ty v = segs ++ [{| value := v; type := ty |}].
Proof.
  intros Hv. unfold push. rewrite bool_decide_eq_false_2 by done.
  destruct (last segs) as [x|] eqn:Hl; [|by right].
  apply last_Some in Hl as [l ->].
  case_bool_decide as Hty; [|by right].
  left. exists l, x. split_and!; [done..|].
  rewrite push_last_alter. by rewrite Hty.
Qed.

Lemma push_before segs ty v :
  segs_before (push segs ty v)
  = segs_before segs ++ match ty with added => [] | _ => v end.
Proof.
  destruct (decide (v = [])) as [->|Hv].
  { unfold push. simpl. destruct ty; by rewrite app_nil_r. }
  unfold segs_before.
  destruct (push_cases segs ty v Hv) as [(l & x & -> & Hty & ->)| ->];
    rewrite !fmap_app, !concat_app; simpl; rewrite ?app_nil_r.
  - unfold seg_before; simpl. rewrite Hty.
    destruct ty; by rewrite <- ?app_assoc, ?app_nil_r.
  - unfold seg_before; simpl. by destruct ty.
Qed.

Lemma push_after segs ty v :
  segs_after (push segs ty v)
  = segs_after segs ++ match ty with removed => [] | _ => v end.
Proof.
  destruct (decide (v = [])) as [->|Hv].
  { unfold push. simpl. destruct ty; by rewrite app_nil_r. }
  unfold segs_after.
  destruct (push_cases segs ty v Hv) as [(l & x & -> & Hty & ->)| ->];
    rewrite !fmap_app, !concat_app; simpl; rewrite ?app_nil_r.
  - unfold seg_after; simpl. rewrite Hty.
    destruct ty; by rewrite <- ?app_assoc, ?app_nil_r.
  - unfold seg_after; simpl. by destruct ty.
Qed.

Lemma push_one_seg ty v t : push (one_seg ty v) ty t = one_seg ty (v ++ t).
Proof.
  unfold one_seg, push.
  destruct (decide (t = [])) as [->|Ht].
  { simpl. by rewrite app_nil_r. }
  rewrite (bool_decide_eq_false_2 (t = [])) by done.
  destruct (decide (v = [])) as [->|Hv]; simpl.
  - by rewrite (bool_decide_eq_false_2 (t = [])) by done.
  - rewrite !bool_decide_eq_false_2; [|by destruct v|done].
    simpl. by rewrite bool_decide_eq_true_2.
Qed.

Lemma foldl_push_before ty toks segs :
  segs_before (foldl (λ segs t, push segs ty t) segs toks)
  = segs_before segs ++ match ty with added => [] | _ => concat toks end.
Proof.
  revert segs. induction toks as [|t toks IH]; intros segs; simpl.
  - destruct ty; by rewrite app_nil_r.
  - rewrite IH, push_before. destruct ty; by rewrite <- ?app_assoc, ?app_nil_r.
Qed.

Lemma foldl_push_after ty toks segs :
  segs_after (foldl (λ segs t, push segs ty t) segs toks)
  = segs_after segs ++ match ty with removed => [] | _ => concat toks end.
Proof.
  revert segs. induction toks as [|t toks IH]; intros segs; simpl.
  - destruct ty; by rewrite app_nil_r.
  - rewrite IH, push_after. destruct ty; by rewrite <- ?app_assoc, ?app_nil_r.
Qed.

Lemma foldl_push_one_seg ty toks v :
  foldl (λ segs t, push segs ty t) (one_seg ty v) toks
  = one_seg ty (v ++ concat toks).
Proof.
  revert v. induction toks as [|t toks IH]; intros v; simpl.
  - by rewrite app_nil_r.
  - by rewrite push_one_seg, IH, <- app_assoc.
Qed.

(** ** The alignment walk *)

Lemma lookup_total_Some (a : list jsstring) i x : a !! i = Some x → a !!! i = x.
Proof. intros H. by apply list_lookup_total_correct. Qed.

(** Whatever the table holds, the walk moves tokens from the inputs to the
    segments without losing or reordering any. *)
Lemma walk_covers fuel a b dp i j segs i' j' segs' :
  walk fuel a b dp i j segs = (i', j', segs') →
  segs_before segs' ++ concat (drop i' a) = segs_before segs ++ concat (drop i a)
  ∧ segs_after segs' ++ concat (drop j' b) = segs_after segs ++ concat (drop j b).
Proof.
  revert i j segs. induction fuel as [|fuel IH]; intros i j segs; simpl.
  { by intros [= -> -> ->]. }
  destruct (bool_decide (i < length a) && bool_decide (j < length b)) eqn:Hc;
    [|by intros [= -> -> ->]].
  apply andb_prop in Hc as [Hi%bool_decide_eq_true Hj%bool_decide_eq_true].
  destruct (lookup_lt_is_Some_2 a i Hi) as [x Hx].
  destruct (lookup_lt_is_Some_2 b j Hj) as [y Hy].
  rewrite (lookup_total_Some _ _ _ Hx), (lookup_total_Some _ _ _ Hy).
  rewrite (drop_S a x i Hx), (drop_S b y j Hy). simpl.
  replace (i + 1) with (S i) by lia. replace (j + 1) with (S j) by lia.
  case_bool_decide as Heq.
  - assert (x = y) as <- by congruence.
    intros [-> ->]%IH. rewrite push_before, push_after.
    by rewrite <- !app_assoc.
  - case_bool_decide.
    + intros [-> ->]%IH. rewrite push_before, push_after, (drop_S b y j Hy).
      simpl. by rewrite app_nil_r, <- !app_assoc.
    + intros [-> ->]%IH. rewrite push_before, push_after, (drop_S a x i Hx).
      simpl. by rewrite app_nil_r, <- !app_assoc.
Qed.

(** The indices only grow, by one token per iteration. *)
Lemma walk_exit fuel a b dp i j segs i' j' segs' :
  walk fuel a b dp i j segs = (i', j', segs') →
  i ≤ length a → j ≤ length b →
  (length a - i) + (length b - j) ≤ fuel →
  i' ≤ length a ∧ j' ≤ length b ∧ ¬ (i' < length a ∧ j' < length b).
Proof.
  revert i j segs. induction fuel as [|fuel IH]; intros i j segs; simpl.
  { intros [= -> -> ->] ???. lia. }
  destruct (bool_decide (i < length a) && bool_decide (j < length b)) eqn:Hc.
  - apply andb_prop in Hc as [Hi%bool_decide_eq_true Hj%bool_decide_eq_true].
    repeat case_bool_decide; intros Hw ???; apply IH in Hw; lia.
  - intros [= -> -> ->] ???. split_and!; [done..|].
    intros [Hi Hj]. by rewrite !bool_decide_eq_true_2 in Hc.
Qed.

(** On two equal token sequences the walk stays on the diagonal and builds
    one [equal] segment. *)
Lemma walk_diagonal fuel a dp i v :
  length a - i ≤ fuel →
  ∃ k, walk fuel a a dp i i (one_seg equal v)
       = (k, k, one_seg equal (v ++ concat (drop i a))) ∧ length a ≤ k.
Proof.
  revert i v. induction fuel as [|fuel IH]; intros i v Hf; simpl.
  { exists i. rewrite drop_ge by lia. simpl. rewrite app_nil_r. split; [done|lia]. }
  destruct (decide (i < length a)) as [Hi|Hi].
  - rewrite !bool_decide_eq_true_2 by done. simpl.
    destruct (lookup_lt_is_Some_2 a i Hi) as [x Hx].
    rewrite (lookup_total_Some _ _ _ Hx), push_one_seg, (drop_S a x i Hx).
    replace (i + 1) with (S i) by lia.
    destruct (IH (S i) (v ++ x) ltac:(lia)) as (k & -> & Hk).
    exists k. simpl. by rewrite <- app_assoc.
  - rewrite bool_decide_eq_false_2 by done. simpl.
    exists i. rewrite drop_ge by lia. simpl. rewrite app_nil_r. split; [done|lia].
Qed.

(** ** [diffWords] *)

(** The iterations [diffWords] allows are enough: its walk stops because
    the loop condition fails. *)
Lemma diffWords_walk_exit x y i j segs :
  walk (length (tokenize x) + length (tokenize y)) (tokenize x) (tokenize y)
       (lcsTable (tokenize x) (tokenize y)) 0 0 [] = (i, j, segs) →
  ¬ (i < length (tokenize x) ∧ j < length (tokenize y)).
Proof. intros Hw. apply walk_exit in Hw; [apply Hw|lia..]. Qed.

Lemma diffWords_before x y : segs_before (diffWords x y) = x.
Proof.
  unfold diffWords.
  destruct (walk _ _ _ _ 0 0 []) as [[i j] segs] eqn:Hw.
  apply walk_covers in Hw as [Hb _].
  rewrite foldl_push_before, foldl_push_before, app_nil_r, Hb.
  simpl. apply tokenize_concat.
Qed.

Lemma diffWords_after x y : segs_after (diffWords x y) = y.
Proof.
  unfold diffWords.
  destruct (walk _ _ _ _ 0 0 []) as [[i j] segs] eqn:Hw.
  apply walk_covers in Hw as [_ Ha].
  rewrite foldl_push_after, foldl_push_after, app_nil_r, Ha.
  simpl. apply tokenize_concat.
Qed.

Lemma diffWords_same x : diffWords x x = one_seg equal x.
Proof.
  unfold diffWords.
  destruct (walk_diagonal (length (tokenize x) + length (tokenize x))
              (tokenize x) (lcsTable (tokenize x) (tokenize x)) 0 [])
    as (k & Hw & Hk); [lia|].
  change (one_seg equal []) with (@nil DiffSegment) in Hw. rewrite Hw.
  rewrite (drop_ge _ k) by lia. cbn [foldl].
  by rewrite drop_0, app_nil_l, tokenize_concat.
Qed.

Lemma walk_nil_l fuel b dp j segs : walk fuel [] b dp 0 j segs = (0, j, segs).
Proof. by destruct fuel. Qed.

Lemma walk_nil_r fuel a dp i segs : walk fuel a [] dp i 0 segs = (i, 0, segs).
Proof. destruct fuel; simpl; [done|]. by rewrite andb_false_r. Qed.

Lemma diffWords_nil_l y : diffWords [] y = one_seg added y.
Proof.
  unfold diffWords. change (tokenize []) with (@nil jsstring).
  rewrite walk_nil_l, !drop_0. cbn [foldl].
  transitivity (foldl (λ segs t, push segs added t) (one_seg added []) (tokenize y));
    [done|].
  by rewrite foldl_push_one_seg, tokenize_concat.
Qed.

Lemma diffWords_nil_r x : diffWords x [] = one_seg removed x.
Proof.
  unfold diffWords. change (tokenize []) with (@nil jsstring).
  rewrite walk_nil_r, !drop_0. cbn [foldl].
  transitivity (foldl (λ segs t, push segs removed t) (one_seg removed []) (tokenize x));
    [done|].
  by rewrite foldl_push_one_seg, tokenize_concat.
Qed.

(** ** [groupOps] *)

Lemma collect_spec ty acc segs :
  ∃ taken,
    segs = taken ++ (collect ty acc segs).2
    ∧ Forall (λ s, type s = ty) taken
    ∧ (collect ty acc segs).1 = acc ++ concat (value <$> taken).
Proof.
  revert acc. induction segs as [|s segs IH]; intros acc; simpl.
  { exists []. split_and!; [done|constructor|simpl; by rewrite app_nil_r]. }
  case_bool_decide as Hty.
  - destruct (IH (acc ++ value s)) as (taken & Hs & Hall & Hacc).
    exists (s :: taken). split_and!.
    + simpl. by rewrite <- Hs.
    + by constructor.
    + rewrite Hacc. simpl. by rewrite <- app_assoc.
  - exists []. split_and!; [done|constructor|simpl; by rewrite app_nil_r].
Qed.

Lemma collect_length ty acc segs :
  length (collect ty acc segs).2 ≤ length segs.
Proof.
  destruct (collect_spec ty acc segs) as (taken & Hs & _).
  rewrite Hs at 2. rewrite length_app. lia.
Qed.

Lemma collect_progress ty acc s rest :
  type s = ty → length (collect ty acc (s :: rest)).2 ≤ length rest.
Proof.
  intros Hty. simpl. rewrite bool_decide_eq_true_2 by done.
  apply collect_length.
Qed.

Lemma segs_before_cons s l : segs_before (s :: l) = seg_before s ++ segs_before l.
Proof. done. Qed.

Lemma segs_after_cons s l : segs_after (s :: l) = seg_after s ++ segs_after l.
Proof. done. Qed.

Lemma segs_removed_run taken :
  Forall (λ s, type s = removed) taken →
  segs_before taken = concat (value <$> taken) ∧ segs_after taken = [].
Proof.
  induction 1 as [|s l Hs _ [IHb IHa]]; [done|].
  rewrite segs_before_cons, segs_after_cons, fmap_cons, IHb, IHa.
  unfold seg_before, seg_after. by rewrite Hs.
Qed.

Lemma segs_added_run taken :
  Forall (λ s, type s = added) taken →
  segs_after taken = concat (value <$> taken) ∧ segs_before taken = [].
Proof.
  induction 1 as [|s l Hs _ [IHa IHb]]; [done|].
  rewrite segs_before_cons, segs_after_cons, fmap_cons, IHb, IHa.
  unfold seg_before, seg_after. by rewrite Hs.
Qed.

Lemma segs_before_app l1 l2 : segs_before (l1 ++ l2) = segs_before l1 ++ segs_before l2.
Proof. unfold segs_before. by rewrite fmap_app, concat_app. Qed.

Lemma segs_after_app l1 l2 : segs_after (l1 ++ l2) = segs_after l1 ++ segs_after l2.
Proof. unfold segs_after. by rewrite fmap_app, concat_app. Qed.

(** One iteration of the outer loop on a segment that is not [equal]:
    the two inner loops consume at least one segment, and the texts they
    collect are the two sides of what they consumed. *)
Lemma group_change_step s rest :
  type s ≠ equal →
  let c1 := collect removed [] (s :: rest) in
  let c2 := collect added [] c1.2 in
  length c2.2 ≤ length rest
  ∧ segs_before (s :: rest) = c1.1 ++ segs_before c2.2
  ∧ segs_after (s :: rest) = c2.1 ++ segs_after c2.2.
Proof.
  intros Hne c1 c2.
  destruct (collect_spec removed [] (s :: rest)) as (t1 & H1 & Hall1 & Hacc1).
  destruct (collect_spec added [] c1.2) as (t2 & H2 & Hall2 & Hacc2).
  fold c1 in H1, Hacc1. fold c2 in H2, Hacc2.
  apply segs_removed_run in Hall1 as [Hb1 Ha1].
  apply segs_added_run in Hall2 as [Ha2 Hb2].
  split_and!.
  - destruct (type s) eqn:Hty; [done| |].
    + assert (c1 = ([], s :: rest)) as Hc1.
      { unfold c1. simpl. by rewrite Hty. }
      unfold c2. rewrite Hc1. by apply collect_progress.
    + pose proof (collect_progress removed [] s rest Hty).
      pose proof (collect_length added [] c1.2). unfold c2. fold c1 in H. lia.
  - rewrite H1 at 1. rewrite H2 at 1.
    rewrite !segs_before_app, Hb1, Hb2, Hacc1. done.
  - rewrite H1 at 1. rewrite H2 at 1.
    rewrite !segs_after_app, Ha1, Ha2, Hacc2. done.
Qed.

Lemma group_proj fuel segs ops :
  length segs ≤ fuel →
  concat (op_before <$> group fuel segs ops)
  = concat (op_before <$> ops) ++ segs_before segs
  ∧ concat (op_after <$> group fuel segs ops)
    = concat (op_after <$> ops) ++ segs_after segs.
Proof.
  revert segs ops. induction fuel as [|fuel IH]; intros segs ops Hf.
  { destruct segs; [|simpl in Hf; lia]. simpl. by rewrite !app_nil_r. }
  destruct segs as [|s rest]; [simpl; by rewrite !app_nil_r|].
  cbn [group]. simpl in Hf. case_bool_decide as Hty.
  - destruct (IH rest (ops ++ [EqualOp (value s)]) ltac:(lia)) as [-> ->].
    rewrite !fmap_app, !concat_app, segs_before_cons, segs_after_cons.
    unfold seg_before, seg_after. rewrite Hty. simpl.
    by rewrite !app_nil_r, <- !app_assoc.
  - destruct (group_change_step s rest Hty) as (Hlen & Hb & Ha).
    destruct (collect removed [] (s :: rest)) as [r segs1].
    destruct (collect added [] segs1) as [ad segs2] eqn:Hc2.
    simpl in Hlen, Hb, Ha. rewrite Hc2 in Hlen, Hb, Ha. simpl in Hlen, Hb, Ha.
    rewrite Hb, Ha.
    destruct (IH segs2
      (if bool_decide (0 < length r) || bool_decide (0 < length ad)
       then ops ++ [ChangeOp r ad] else ops) ltac:(lia)) as [-> ->].
    destruct (bool_decide (0 < length r) || bool_decide (0 < length ad)) eqn:Hne.
    + rewrite !fmap_app, !concat_app. simpl.
      by rewrite !app_nil_r, <- !app_assoc.
    + apply orb_false_elim in Hne as [Hr%bool_decide_eq_false Had%bool_decide_eq_false].
      destruct r; [|simpl in Hr; lia]. destruct ad; [|simpl in Had; lia]. done.
Qed.

(** The fuel given by [groupOps] is enough: with more, the loop returns the
    same operations. *)
Lemma group_fuel f1 f2 segs ops :
  length segs ≤ f1 → length segs ≤ f2 → group f1 segs ops = group f2 segs ops.
Proof.
  revert f2 segs ops. induction f1 as [|f1 IH]; intros f2 segs ops H1 H2.
  { destruct segs; [|simpl in H1; lia]. by destruct f2. }
  destruct segs as [|s rest]; [by destruct f2|].
  destruct f2 as [|f2]; [simpl in H2; lia|].
  cbn [group]. simpl in H1, H2. case_bool_decide as Hty.
  - apply IH; lia.
  - destruct (group_change_step s rest Hty) as (Hlen & _ & _).
    destruct (collect removed [] (s :: rest)) as [r segs1].
    destruct (collect added [] segs1) as [ad segs2] eqn:Hc2.
    simpl in Hlen. rewrite Hc2 in Hlen. simpl in Hlen.
    apply IH; lia.
Qed.

Lemma groupOps_before x y : concat (op_before <$> groupOps x y) = x.
Proof.
  unfold groupOps.
  destruct (group_proj (length (diffWords x y)) (diffWords x y) []) as [-> _];
    [done|].
  apply diffWords_before.
Qed.

Lemma groupOps_after x y : concat (op_after <$> groupOps x y) = y.
Proof.
  unfold groupOps.
  destruct (group_proj (length (diffWords x y)) (diffWords x y) []) as [_ ->];
    [done|].
  apply diffWords_after.
Qed.

(** ** Change indices and the initial decisions *)

Lemma elem_of_changeIdxs ops idx :
  idx ∈ changeIdxs ops ↔ ∃ b a, ops !! idx = Some (ChangeOp b a).
Proof.
  unfold changeIdxs. rewrite list_elem_of_omap. split.
  - intros (o & Ho & Hid). apply list_elem_of_lookup in Ho as [i Hi].
    rewrite list_lookup_imap in Hi.
    destruct (ops !! i) as [op|] eqn:Hop; [|done].
    simpl in Hi. injection Hi as <-.
    destruct op as [v|b a]; [done|]. simpl in Hid. injection Hid as <-. eauto.
  - intros (b & a & Hop). exists (Some idx). split; [|done].
    apply list_elem_of_lookup. exists idx.
    rewrite list_lookup_imap, Hop. done.
Qed.

Lemma lookup_foldl_pending (l : list nat) (m : gmap nat Decision) idx :
  foldl (λ init i, <[i := pending]> init) m l !! idx
  = if decide (idx ∈ l) then Some pending else m !! idx.
Proof.
  revert m. induction l as [|i l IH]; intros m; cbn [foldl].
  { destruct (decide (idx ∈ [])) as [H|]; [by apply elem_of_nil in H|done]. }
  rewrite IH.
  destruct (decide (idx ∈ l)) as [Hin|Hnin],
           (decide (idx ∈ i :: l)) as [Hin'|Hnin']; [done|..].
  - exfalso. apply Hnin'. by right.
  - apply elem_of_cons in Hin' as [->|?]; [|done]. apply lookup_insert_eq.
  - apply lookup_insert_ne. intros ->. apply Hnin'. by left.
Qed.

Lemma lookup_initDecisions ops idx :
  initDecisions ops !! idx
  = if decide (idx ∈ changeIdxs ops) then Some pending else None.
Proof. unfold initDecisions. by rewrite lookup_foldl_pending, lookup_empty. Qed.

(** ** The merge *)

Lemma commit_merged_ext ops (next : gmap nat Decision) (side : Op → jsstring) :
  (∀ idx op, ops !! idx = Some op → merge_op next idx op = side op) →
  (commit ops next).1 = concat (side <$> ops).
Proof.
  intros H. unfold commit. simpl. f_equal.
  rewrite <- imap_const. by apply imap_ext.
Qed.

Lemma commit_accepted ops (next : gmap nat Decision) :
  Forall (λ idx, next !! idx = Some accept) (changeIdxs ops) →
  (commit ops next).1 = concat (op_after <$> ops).
Proof.
  rewrite Forall_forall. intros H. apply commit_merged_ext.
  intros idx [v|b a] Hop; [done|]. simpl.
  rewrite (H idx); [done|]. apply elem_of_changeIdxs. eauto.
Qed.

Lemma commit_not_accepted ops (next : gmap nat Decision) :
  Forall (λ idx, next !! idx ≠ Some accept) (changeIdxs ops) →
  (commit ops next).1 = concat (op_before <$> ops).
Proof.
  rewrite Forall_forall. intros H. apply commit_merged_ext.
  intros idx [v|b a] Hop; [done|]. simpl.
  assert (next !! idx ≠ Some accept) as Hn.
  { apply H, elem_of_changeIdxs. eauto. }
  destruct (next !! idx) as [[]|]; done.
Qed.

(** C1. For every pair of strings, merging the operations of
    [groupOps before after] with every change-op accepted gives exactly
    [after]: the after-sides of the operations, concatenated in order,
    reconstruct [after]. *)
Theorem accept_all_merge_is_after (before after : jsstring) (next : gmap nat Decision) :
  Forall (λ idx, next !! idx = Some accept) (changeIdxs (groupOps before after)) →
  (commit (groupOps before after) next).1 = after
  ∧ concat (op_after <$> groupOps before after) = after.
Proof.
  intros H. rewrite (commit_accepted _ _ H). split; apply groupOps_after.
Qed.

Lemma accept_all_merge_is_after_witness :
  let before := str "Dear Professor Smith, I am interested." in
  let after := str "Dear Dr. Smith, I am very interested." in
  let next : gmap nat Decision := <[1 := accept]> (<[3 := accept]> ∅) in
  Forall (λ idx, next !! idx = Some accept) (changeIdxs (groupOps before after))
  ∧ (commit (groupOps before after) next).1 = after
  ∧ concat (op_after <$> groupOps before after) = after.
Proof.
  intros before after next.
  assert (Forall (λ idx, next !! idx = Some accept)
            (changeIdxs (groupOps before after))) as H.
  { vm_compute. repeat constructor. }
  split; [exact H|].
  exact (accept_all_merge_is_after before after next H).
Defined.

(** C2. For every pair of strings, merging with every change-op declined,
    left pending, absent from the store, or any mixture of these gives
    exactly [before]. *)
Theorem decline_or_pending_merge_is_before (before after : jsstring)
    (next : gmap nat Decision) :
  Forall (λ idx, next !! idx ≠ Some accept) (changeIdxs (groupOps before after)) →
  (commit (groupOps before after) next).1 = before
  ∧ concat (op_before <$> groupOps before after) = before.
Proof.
  intros H. rewrite (commit_not_accepted _ _ H). split; apply groupOps_before.
Qed.

Lemma decline_or_pending_merge_is_before_witness :
  let before := str "Dear Professor Smith, I am interested." in
  let after := str "Dear Dr. Smith, I am very interested." in
  let next : gmap nat Decision := <[1 := decline]> (<[3 := pending]> ∅) in
  Forall (λ idx, next !! idx ≠ Some accept) (changeIdxs (groupOps before after))
  ∧ (commit (groupOps before after) next).1 = before
  ∧ concat (op_before <$> groupOps before after) = before.
Proof.
  intros before after next.
  assert (Forall (λ idx, next !! idx ≠ Some accept)
            (changeIdxs (groupOps before after))) as H.
  { vm_compute. repeat constructor; discriminate. }
  split; [exact H|].
  exact (decline_or_pending_merge_is_before before after next H).
Defined.

(** ** Degenerate inputs *)

Lemma group_one_equal x : x ≠ [] → group 1 (one_seg equal x) [] = [EqualOp x].
Proof. intros Hx. unfold one_seg. by rewrite bool_decide_eq_false_2. Qed.

Lemma group_one_added x : x ≠ [] → group 1 (one_seg added x) [] = [ChangeOp [] x].
Proof.
  intros Hx. unfold one_seg. rewrite bool_decide_eq_false_2 by done.
  destruct x as [|c x]; [done|]. done.
Qed.

Lemma group_one_removed x : x ≠ [] → group 1 (one_seg removed x) [] = [ChangeOp x []].
Proof.
  intros Hx. unfold one_seg. rewrite bool_decide_eq_false_2 by done.
  destruct x as [|c x]; [done|]. done.
Qed.

Lemma one_seg_length ty x : length (one_seg ty x) = if bool_decide (x = []) then 0 else 1.
Proof. unfold one_seg. by case_bool_decide. Qed.

Lemma groupOps_same x :
  groupOps x x = if bool_decide (x = []) then [] else [EqualOp x].
Proof.
  unfold groupOps. rewrite diffWords_same, one_seg_length.
  case_bool_decide; [done|]. by apply group_one_equal.
Qed.

Lemma groupOps_nil_l x :
  groupOps [] x = if bool_decide (x = []) then [] else [ChangeOp [] x].
Proof.
  unfold groupOps. rewrite diffWords_nil_l, one_seg_length.
  case_bool_decide; [done|]. by apply group_one_added.
Qed.

Lemma groupOps_nil_r x :
  groupOps x [] = if bool_decide (x = []) then [] else [ChangeOp x []].
Proof.
  unfold groupOps. rewrite diffWords_nil_r, one_seg_length.
  case_bool_decide; [done|]. by apply group_one_removed.
Qed.

(** C5, as the code has it. The diff of a string against itself has only
    equal operations and no change-op: it is the single equal-op holding the
    string when the string is not empty, and no operation at all when it is
    empty. Against the empty string, a non-empty string gives a single
    change-op whose other side is empty. *)
Theorem self_diff_has_no_change (x : jsstring) :
  Forall (λ op, is_equal_op op = true) (groupOps x x)
  ∧ changeIdxs (groupOps x x) = []
  ∧ groupOps x x = (if bool_decide (x = []) then [] else [EqualOp x])
  ∧ groupOps [] x = (if bool_decide (x = []) then [] else [ChangeOp [] x])
  ∧ groupOps x [] = (if bool_decide (x = []) then [] else [ChangeOp x []]).
Proof.
  rewrite groupOps_same, groupOps_nil_l, groupOps_nil_r.
  case_bool_decide; split_and!; try done; by repeat constructor.
Qed.

(** C5 as stated fails on the empty string: two empty inputs are identical
    and give no operation, not a single equal-op. *)
Lemma empty_self_diff_is_not_one_equal_op :
  groupOps [] [] = [] ∧ ¬ ∃ v, groupOps [] [] = [EqualOp v].
Proof. split; [done|]. by intros [v Hv]. Qed.

(** ** Decisions only move away from pending *)

Lemma all_resolved_spec ops (next : gmap nat Decision) :
  (commit ops next).2 = true ↔ ∀ k d, next !! k = Some d → d ≠ pending.
Proof. unfold commit. simpl. by rewrite bool_decide_eq_true. Qed.

Lemma decision_of_not_pending v : decision_of v ≠ pending.
Proof. by destruct v. Qed.

Lemma setDecision_lookup ops (prev : gmap nat Decision) idx v k :
  (setDecision ops prev idx v).1 !! k
  = if decide (idx = k) then Some (decision_of v) else prev !! k.
Proof. unfold setDecision. simpl. apply lookup_insert. Qed.

Lemma decide_all_decided ops ds (prev : gmap nat Decision) k :
  (∃ d, prev !! k = Some d ∧ d ≠ pending) →
  ∃ d', decide_all ops prev ds !! k = Some d' ∧ d' ≠ pending.
Proof.
  unfold decide_all. revert prev.
  induction ds as [|[idx v] ds IH]; intros prev Hk; [done|].
  cbn [foldl]. apply IH. rewrite setDecision_lookup. simpl.
  case_decide; [|done]. eexists. split; [done|]. apply decision_of_not_pending.
Qed.

Lemma decide_all_resolved ops ds (prev : gmap nat Decision) :
  (commit ops prev).2 = true → (commit ops (decide_all ops prev ds)).2 = true.
Proof.
  unfold decide_all. revert prev.
  induction ds as [|[idx v] ds IH]; intros prev Hr; [done|].
  cbn [foldl]. apply IH. rewrite all_resolved_spec in Hr |- *.
  intros k d. rewrite setDecision_lookup. simpl. case_decide.
  - intros [= <-]. apply decision_of_not_pending.
  - apply Hr.
Qed.

(** C10. On a fixed operation list the only mutation of the decision store
    is [setDecision], which writes accept or decline at one index and leaves
    the other entries alone. So an entry that is decided stays decided
    through any run of decisions, and once [allResolved] has been reported
    true it is reported true after every later decision. *)
Theorem decisions_never_return_to_pending (ops : list Op)
    (prev : gmap nat Decision) (ds : list (nat * Verdict)) :
  (∀ idx v,
      (setDecision ops prev idx v).1 = <[idx := decision_of v]> prev
      ∧ decision_of v ≠ pending
      ∧ (setDecision ops prev idx v).2 = commit ops (<[idx := decision_of v]> prev))
  ∧ (∀ k, (∃ d, prev !! k = Some d ∧ d ≠ pending) →
          ∃ d', decide_all ops prev ds !! k = Some d' ∧ d' ≠ pending)
  ∧ ((commit ops prev).2 = true →
     (commit ops (decide_all ops prev ds)).2 = true).
Proof.
  split_and!.
  - intros idx v. split_and!; [done|apply decision_of_not_pending|done].
  - intros k. apply decide_all_decided.
  - apply decide_all_resolved.
Qed.

Lemma decisions_never_return_to_pending_witness :
  let ops := groupOps (str "a b") (str "c b d") in
  let prev := (setDecision ops (setDecision ops (initDecisions ops) 0 Accept).1
                 2 Decline).1 in
  let ds := [(0, Decline); (2, Accept); (2, Decline)] in
  (commit ops prev).2 = true ∧ (commit ops (decide_all ops prev ds)).2 = true.
Proof.
  intros ops prev ds.
  assert ((commit ops prev).2 = true) as H by (vm_compute; reflexivity).
  split; [exact H|].
  exact (proj2 (proj2 (decisions_never_return_to_pending ops prev ds)) H).
Defined.

(** ** The score table *)

Lemma lcs_length_nil_l b : lcs_length [] b = 0.
Proof. by destruct b. Qed.

Lemma lcs_length_nil_r a : lcs_length a [] = 0.
Proof. by destruct a. Qed.

Lemma lcs_length_cons x a y b :
  lcs_length (x :: a) (y :: b)
  = if bool_decide (x = y) then S (lcs_length a b)
    else lcs_length a (y :: b) `max` lcs_length (x :: a) b.
Proof. done. Qed.

Lemma dp_get_set m n dp i j v i' j' :
  table_shape m n dp → i ≤ m → j ≤ n →
  dp_get (dp_set dp i j v) i' j'
  = if decide (i' = i ∧ j' = j) then v else dp_get dp i' j'.
Proof.
  intros [Hlen Hrows] Hi Hj. unfold dp_get, dp_set.
  rewrite list_lookup_alter.
  destruct (decide (i = i')) as [<-|Hne].
  - destruct (lookup_lt_is_Some_2 dp i ltac:(lia)) as [row Hrow].
    rewrite Hrow. simpl. rewrite list_lookup_insert.
    pose proof (Hrows _ _ Hrow).
    destruct (decide (j = j' ∧ j < length row)) as [[<- _]|Hn].
    + by rewrite decide_True.
    + rewrite decide_False by (intros [_ ->]; apply Hn; split; [done|lia]). done.
  - rewrite decide_False by (intros [-> _]; done). done.
Qed.

Lemma dp_set_shape m n dp i j v :
  table_shape m n dp → table_shape m n (dp_set dp i j v).
Proof.
  intros [Hlen Hrows]. unfold dp_set. split; [by rewrite length_alter|].
  intros i' row. rewrite list_lookup_alter. case_decide; [|apply Hrows].
  subst. destruct (dp !! i') as [row'|] eqn:Hrow; [|done].
  simpl. intros [= <-]. rewrite length_insert. by eapply Hrows.
Qed.

Section lcs_table.
Variables a b : list jsstring.

(** One assignment [dp[i][j] = ...] of the inner loop body. *)
Lemma lcs_cell_spec dp i j :
  table_shape (length a) (length b) dp →
  i < length a → j < length b →
  cell_ok a b dp (i + 1) (j + 1) → cell_ok a b dp (i + 1) j →
  cell_ok a b dp i (j + 1) →
  table_shape (length a) (length b) (lcs_cell a b i j dp)
  ∧ cell_ok a b (lcs_cell a b i j dp) i j
  ∧ ∀ i' j', ¬ (i' = i ∧ j' = j) →
      dp_get (lcs_cell a b i j dp) i' j' = dp_get dp i' j'.
Proof.
  intros Hs Hi Hj Hd Hdown Hright.
  destruct (lookup_lt_is_Some_2 a i Hi) as [x Hx].
  destruct (lookup_lt_is_Some_2 b j Hj) as [y Hy].
  assert (lcs_length (drop i a) (drop j b)
          = if bool_decide (a !! i = b !! j)
            then dp_get dp (i + 1) (j + 1) + 1
            else dp_get dp (i + 1) j `max` dp_get dp i (j + 1)) as Hval.
  { rewrite Hd, Hdown, Hright.
    replace (i + 1) with (S i) by lia. replace (j + 1) with (S j) by lia.
    rewrite (drop_S a x i Hx), (drop_S b y j Hy), lcs_length_cons, Hx, Hy.
    repeat case_bool_decide; try congruence; lia. }
  unfold lcs_cell, cell_ok. rewrite Hval.
  case_bool_decide; (split_and!;
    [by apply dp_set_shape
    |rewrite (dp_get_set _ _ _ _ _ _ _ _ Hs) by lia; by rewrite decide_True
    |intros i' j' Hne; rewrite (dp_get_set _ _ _ _ _ _ _ _ Hs) by lia;
     by rewrite decide_False]).
Qed.

(** The inner loop on row [i], for the columns [k .. n-1]. *)
Lemma fill_row i dp len : ∀ k,
  k + len = length b → i < length a →
  table_shape (length a) (length b) dp →
  (∀ j, cell_ok a b dp (i + 1) j) →
  (∀ j, length b ≤ j → cell_ok a b dp i j) →
  let dp' := foldr (λ j dp, lcs_cell a b i j dp) dp (seq k len) in
  table_shape (length a) (length b) dp'
  ∧ (∀ i' j, i' ≠ i → dp_get dp' i' j = dp_get dp i' j)
  ∧ (∀ j, k ≤ j → cell_ok a b dp' i j).
Proof.
  induction len as [|len IH]; intros k Hk Hi Hs Hbelow Hend; simpl.
  { split_and!; [done..|]. intros j ?. apply Hend. lia. }
  destruct (IH (S k) ltac:(lia) Hi Hs Hbelow Hend) as (Hs1 & Hother & Hrow).
  set (dp1 := foldr _ dp (seq (S k) len)) in *.
  destruct (lcs_cell_spec dp1 i k Hs1 Hi ltac:(lia)) as (Hs2 & Hcell & Hrest).
  - unfold cell_ok. rewrite Hother by lia. apply Hbelow.
  - unfold cell_ok. rewrite Hother by lia. apply Hbelow.
  - apply Hrow. lia.
  - split_and!; [done|..].
    + intros i' j Hne. rewrite Hrest by (intros [? _]; done). by apply Hother.
    + intros j Hj. destruct (decide (j = k)) as [->|Hne]; [done|].
      unfold cell_ok. rewrite Hrest by (intros [_ ?]; done).
      apply Hrow. lia.
Qed.

(** The outer loop, for the rows [k .. m-1]. *)
Lemma fill_rows dp len : ∀ k,
  k + len = length a →
  table_shape (length a) (length b) dp →
  (∀ i j, length a ≤ i → cell_ok a b dp i j) →
  (∀ i j, length b ≤ j → cell_ok a b dp i j) →
  let dp' := foldr (λ i dp, foldr (λ j dp, lcs_cell a b i j dp) dp
                                  (seq 0 (length b))) dp (seq k len) in
  table_shape (length a) (length b) dp'
  ∧ (∀ i j, i < k → dp_get dp' i j = dp_get dp i j)
  ∧ (∀ i j, k ≤ i → cell_ok a b dp' i j).
Proof.
  induction len as [|len IH]; intros k Hk Hs Hlast Hend; simpl.
  { split_and!; [done..|]. intros i j ?. apply Hlast. lia. }
  destruct (IH (S k) ltac:(lia) Hs Hlast Hend) as (Hs1 & Hkeep & Hrows).
  set (dp1 := foldr _ dp (seq (S k) len)) in *.
  destruct (fill_row k dp1 (length b) 0 ltac:(lia) ltac:(lia) Hs1)
    as (Hs2 & Hother & Hrow).
  - intros j. apply Hrows. lia.
  - intros j Hj. unfold cell_ok. rewrite Hkeep by lia. by apply Hend.
  - split_and!; [done|..].
    + intros i j Hi. rewrite Hother by lia. apply Hkeep. lia.
    + intros i j Hi. destruct (decide (i = k)) as [->|Hne].
      * apply Hrow. lia.
      * unfold cell_ok. rewrite Hother by done. apply Hrows. lia.
Qed.

Lemma dp_get_zeros m n i j : dp_get (replicate m (replicate n 0)) i j = 0.
Proof.
  unfold dp_get.
  destruct (replicate m (replicate n 0) !! i) as [row|] eqn:Hrow; [|done].
  apply lookup_replicate in Hrow as [-> _]. simpl.
  destruct (replicate n 0 !! j) as [c|] eqn:Hc; [|done].
  by apply lookup_replicate in Hc as [-> _].
Qed.

(** Every cell of the finished table holds the length of a longest common
    subsequence of the two suffixes; outside the table the score is 0. *)
Lemma lcsTable_spec i j : cell_ok a b (lcsTable a b) i j.
Proof.
  unfold lcsTable.
  destruct (fill_rows (replicate (length a + 1) (replicate (length b + 1) 0))
              (length a) 0) as (_ & _ & Hall).
  - lia.
  - split; [by rewrite length_replicate|].
    intros i' row [-> _]%lookup_replicate. by rewrite length_replicate.
  - intros i' j' Hi. unfold cell_ok.
    by rewrite dp_get_zeros, drop_ge, lcs_length_nil_l.
  - intros i' j' Hj. unfold cell_ok.
    by rewrite dp_get_zeros, (drop_ge b), lcs_length_nil_r.
  - apply Hall. lia.
Qed.
End lcs_table.

(** [lcs_length] is the length of a longest common subsequence. *)
Lemma lcs_length_upper a : ∀ b s,
  s `sublist_of` a → s `sublist_of` b → length s ≤ lcs_length a b.
Proof.
  induction a as [|x a IHa]; intros b s Ha Hb.
  { apply sublist_nil_r in Ha as ->. simpl. lia. }
  revert s Ha Hb. induction b as [|y b IHb]; intros s Ha Hb.
  { apply sublist_nil_r in Hb as ->. simpl. lia. }
  rewrite lcs_length_cons.
  apply sublist_cons_r in Ha as [Ha|(s' & -> & Ha)];
    apply sublist_cons_r in Hb as [Hb|(s'' & Hs & Hb)].
  - pose proof (IHa b s Ha Hb). pose proof (IHb s (sublist_cons _ _ _ Ha) Hb).
    case_bool_decide; lia.
  - subst s. assert (s'' `sublist_of` a) as Ha'.
    { etrans; [|exact Ha]. by apply sublist_cons. }
    pose proof (IHa b s'' Ha' Hb).
    pose proof (IHa (y :: b) (y :: s'') Ha (sublist_skip _ _ _ Hb)).
    simpl in *. case_bool_decide; lia.
  - assert (s' `sublist_of` b) as Hb'.
    { etrans; [|exact Hb]. by apply sublist_cons. }
    pose proof (IHa b s' Ha Hb').
    pose proof (IHb (x :: s') (sublist_skip _ _ _ Ha) Hb).
    simpl in *. case_bool_decide; lia.
  - injection Hs as -> ->. rewrite bool_decide_eq_true_2 by done.
    pose proof (IHa b _ Ha Hb). simpl. lia.
Qed.

Lemma lcs_length_attained a : ∀ b,
  ∃ s, s `sublist_of` a ∧ s `sublist_of` b ∧ length s = lcs_length a b.
Proof.
  induction a as [|x a IHa]; intros b.
  { exists []. split_and!; [apply sublist_nil_l..|by rewrite lcs_length_nil_l]. }
  induction b as [|y b IHb].
  { exists []. split_and!; [apply sublist_nil_l..|done]. }
  rewrite lcs_length_cons. case_bool_decide as Hxy.
  - subst y. destruct (IHa b) as (s & Ha & Hb & Hlen).
    exists (x :: s). split_and!; [by apply sublist_skip..|simpl; lia].
  - destruct (Nat.max_spec (lcs_length a (y :: b)) (lcs_length (x :: a) b))
      as [[_ ->]|[_ ->]].
    + destruct IHb as (s & Ha & Hb & Hlen).
      exists s. split_and!; [done|by apply sublist_cons|done].
    + destruct (IHa (y :: b)) as (s & Ha & Hb & Hlen).
      exists s. split_and!; [by apply sublist_cons|done..].
Qed.

(** The walk gives the same state whenever it is allowed enough iterations. *)
Lemma walk_fuel a b dp f1 : ∀ f2 i j segs,
  (length a - i) + (length b - j) ≤ f1 →
  (length a - i) + (length b - j) ≤ f2 →
  walk f1 a b dp i j segs = walk f2 a b dp i j segs.
Proof.
  induction f1 as [|f1 IH]; intros f2 i j segs H1 H2.
  { destruct f2; simpl; [done|].
    destruct (decide (i < length a)); destruct (decide (j < length b));
      rewrite ?(bool_decide_eq_false_2 (i < length a)),
              ?(bool_decide_eq_false_2 (j < length b)), ?andb_false_r by done;
      try done; lia. }
  destruct f2 as [|f2]; simpl.
  { destruct (decide (i < length a)); destruct (decide (j < length b));
      rewrite ?(bool_decide_eq_false_2 (i < length a)),
              ?(bool_decide_eq_false_2 (j < length b)), ?andb_false_r by done;
      try done; lia. }
  destruct (bool_decide (i < length a) && bool_decide (j < length b)) eqn:Hc;
    [|done].
  apply andb_prop in Hc as [Hi%bool_decide_eq_true Hj%bool_decide_eq_true].
  repeat case_bool_decide; apply IH; lia.
Qed.

(** C6. At a position of the walk where the two current tokens differ and
    the score of going on in [a] (the longest common subsequence of
    [a] from [i+1] and [b] from [j]) equals the score of going on in [b],
    the walk consumes the token of [a] and pushes it as removed; the token
    of [b] is added only later. [diffWords] is a function of its two
    arguments, so the segments of a pair of texts are the same at every
    computation. *)
Theorem tie_break_prefers_removal (a b : list jsstring) (i j fuel : nat)
    (segments : list DiffSegment) :
  i < length a → j < length b → a !! i ≠ b !! j →
  lcs_length (drop (i + 1) a) (drop j b) = lcs_length (drop i a) (drop (j + 1) b) →
  dp_get (lcsTable a b) (i + 1) j = dp_get (lcsTable a b) i (j + 1)
  ∧ walk (S fuel) a b (lcsTable a b) i j segments
    = walk fuel a b (lcsTable a b) (i + 1) j (push segments removed (a !!! i)).
Proof.
  intros Hi Hj Hne Htie.
  assert (dp_get (lcsTable a b) (i + 1) j = dp_get (lcsTable a b) i (j + 1)) as Hdp.
  { by rewrite (lcsTable_spec a b (i + 1) j), (lcsTable_spec a b i (j + 1)). }
  split; [done|]. simpl.
  rewrite !bool_decide_eq_true_2 by done. simpl.
  rewrite (bool_decide_eq_false_2 (a !! i = b !! j)) by done.
  rewrite bool_decide_eq_true_2 by lia. done.
Qed.

Lemma tie_break_prefers_removal_witness :
  let a := [str "x"] in
  let b := [str "y"] in
  walk 2 a b (lcsTable a b) 0 0 []
  = walk 1 a b (lcsTable a b) 1 0 (push [] removed (a !!! 0))
  ∧ diffWords (str "x") (str "y")
    = [{| value := str "x"; type := removed |};
       {| value := str "y"; type := added |}].
Proof.
  intros a b. split; [|by vm_compute].
  apply (tie_break_prefers_removal a b 0 0 1 []).
  - simpl. lia.
  - simpl. lia.
  - by vm_compute.
  - reflexivity.
Defined.

(** ** The reconciliation controller *)

Import Contact.

Lemma get_set_eq {A} f (v : A) o : PerField.get f (PerField.set f v o) = v.
Proof. by destruct f. Qed.

Lemma get_set_ne {A} f g (v : A) o :
  f ≠ g → PerField.get f (PerField.set g v o) = PerField.get f o.
Proof. by destruct f, g. Qed.

Lemma value_of_set_value_eq f v s : value_of f (set_value f v s) = v.
Proof. by destruct f. Qed.

Lemma value_of_set_value_ne f g v s :
  f ≠ g → value_of f (set_value g v s) = value_of f s.
Proof. by destruct f, g. Qed.

Lemma anyPending_spec st :
  anyPending st = true ↔ ∃ f, PerField.get f st = pending.
Proof.
  destruct st as [e s t]. unfold anyPending. simpl. split.
  - intros H. repeat (apply orb_prop in H as [H|H]); try done;
      apply bool_decide_eq_true in H;
      [by exists Email|by exists Subject|by exists Text].
  - intros [[] H]; simpl in H; subst; by rewrite ?orb_true_r.
Qed.

(** What the [onChange] handler of field [f] does to the state. *)
Lemma onChange_spec f pc merged allResolved s :
  let s' := onChange f pc merged allResolved s in
  let nextState :=
    if allResolved
    then if bool_decide (merged = PerField.get f pc) then applied else dismissed
    else pending in
  value_of f s' = merged
  ∧ (∀ g, g ≠ f → value_of g s' = value_of g s)
  ∧ status s' = PerField.set f nextState (status s)
  ∧ pendingChanges s'
    = if bool_decide (nextState ≠ pending)
         && negb (anyPending (PerField.set f nextState (status s)))
      then None else pendingChanges s.
Proof.
  intros s' nextState. subst s'. unfold onChange. fold nextState.
  assert (status (set_value f merged s) = status s) as -> by by destruct f.
  unfold resolveIfDone.
  destruct (bool_decide (nextState ≠ pending)),
           (negb (anyPending (PerField.set f nextState (status s))));
    simpl; (split_and!; [by destruct f|intros g Hg; by destruct f, g|done|by destruct f]).
Qed.

(** C9. With a proposal stored, [acceptAll] gives every field its proposed
    value and the status applied, [declineAll] leaves every value as it is
    and gives every field the status dismissed, and both clear the proposal
    at once. *)
Theorem bulk_accept_and_decline (s : State) (pc : ContactData) :
  pendingChanges s = Some pc →
  (∀ f, value_of f (acceptAll s) = PerField.get f pc
        ∧ PerField.get f (status (acceptAll s)) = applied)
  ∧ pendingChanges (acceptAll s) = None
  ∧ (∀ f, value_of f (declineAll s) = value_of f s
          ∧ PerField.get f (status (declineAll s)) = dismissed)
  ∧ pendingChanges (declineAll s) = None.
Proof.
  intros Hpc. unfold acceptAll, declineAll. rewrite Hpc.
  split_and!; try done; intros []; split; reflexivity.
Qed.

Lemma bulk_accept_and_decline_witness :
  let pc := PerField.mk (str "a@x.com") [] [] in
  let s := incoming pc initial in
  pendingChanges s = Some pc
  ∧ PerField.email (status s) = pending
  ∧ recipient (acceptAll s) = str "a@x.com"
  ∧ PerField.email (status (acceptAll s)) = applied
  ∧ recipient (declineAll s) = []
  ∧ PerField.email (status (declineAll s)) = dismissed
  ∧ pendingChanges (acceptAll s) = None
  ∧ pendingChanges (declineAll s) = None.
Proof.
  intros pc s.
  assert (pendingChanges s = Some pc) as H by reflexivity.
  destruct (bulk_accept_and_decline s pc H) as (Ha & Hna & Hd & Hnd).
  destruct (Ha Email) as [Ha1 Ha2]. destruct (Hd Email) as [Hd1 Hd2].
  split_and!; [exact H|reflexivity|exact Ha1|exact Ha2|exact Hd1|exact Hd2
              |exact Hna|exact Hnd].
Defined.

(** C8. A decision on an operation of field [f] goes through [setDecision]
    and [commit] to the field's handler: the current value of the field
    becomes the merged text whether or not the field is resolved, and the
    status becomes applied (merged text equal to the proposed value) or
    dismissed when [commit] reports resolved, and stays pending otherwise. *)
Theorem decision_updates_field (app app' : App) (f : Field) (idx : nat)
    (v : Verdict) :
  step app (Decide f idx v) = Some app' →
  ∃ k inst pc,
    PerField.get f (resolvers app) = Some (k, inst)
    ∧ pendingChanges (hooks app) = Some pc
    ∧ let next := <[idx := decision_of v]> (decisions inst) in
      let merged := (commit (ops inst) next).1 in
      let allResolved := (commit (ops inst) next).2 in
      value_of f (hooks app') = merged
      ∧ PerField.get f (status (hooks app'))
        = (if allResolved
           then if bool_decide (merged = PerField.get f pc)
                then applied else dismissed
           else pending)
      ∧ ∀ g, g ≠ f →
          value_of g (hooks app') = value_of g (hooks app)
          ∧ PerField.get g (status (hooks app')) = PerField.get g (status (hooks app)).
Proof.
  unfold step. intros Hstep.
  destruct (PerField.get f (resolvers app)) as [[k inst]|] eqn:Hr; [|done].
  destruct (pendingChanges (hooks app)) as [pc|] eqn:Hpc; [|done].
  destruct (has_buttons inst idx); [|done].
  unfold setDecision in Hstep. cbn [fst snd] in Hstep.
  destruct (commit (ops inst) (<[idx:=decision_of v]> (decisions inst)))
    as [merged allResolved] eqn:Hc.
  injection Hstep as <-. exists k, inst, pc.
  split; [done|]. split; [done|].
  cbn zeta. rewrite Hc. cbn [fst snd hooks render].
  destruct (onChange_spec f pc merged allResolved (hooks app))
    as (Hv & Hother & Hst & _).
  split_and!; [done|by rewrite Hst, get_set_eq|].
  intros g Hg. split; [by apply Hother|]. rewrite Hst. by apply get_set_ne.
Qed.

Lemma decision_updates_field_witness :
  let pc := PerField.mk (str "c b d") [] [] in
  ∃ app app',
    run start [Edit Email (str "a b"); Incoming pc] = Some app
    ∧ step app (Decide Email 0 Accept) = Some app'
    ∧ recipient (hooks app') = str "c b"
    ∧ PerField.email (status (hooks app')) = pending.
Proof.
  intros pc. eexists. eexists.
  split; [vm_compute; reflexivity|].
  match goal with |- step ?a ?e = Some ?a' ∧ _ =>
    assert (step a e = Some a') as H by (vm_compute; reflexivity) end.
  split; [exact H|].
  destruct (decision_updates_field _ _ _ _ _ H) as (k & inst & pc' & Hr & Hpc & Hv & Hs & _).
  vm_compute in Hr. injection Hr as <- <-.
  split; [exact Hv|exact Hs].
Defined.

Lemma run_reachable es : ∀ app app',
  reachable app → run app es = Some app' → reachable app'.
Proof.
  induction es as [|e es IH]; intros app app' Hr; simpl.
  { by intros [= <-]. }
  destruct (step app e) as [app1|] eqn:Hs; [|done].
  apply IH. by eapply reachable_step.
Qed.

(** The state after an event. *)
Lemma step_hooks app e app' :
  step app e = Some app' →
  match e with
  | Incoming data => hooks app' = incoming data (hooks app)
  | Decide f idx v =>
      ∃ pc merged allResolved,
        pendingChanges (hooks app) = Some pc
        ∧ hooks app' = onChange f pc merged allResolved (hooks app)
  | AcceptAll =>
      is_Some (pendingChanges (hooks app)) ∧ hooks app' = acceptAll (hooks app)
  | DeclineAll =>
      is_Some (pendingChanges (hooks app)) ∧ hooks app' = declineAll (hooks app)
  | Edit f text => hooks app' = set_value f text (hooks app)
  end.
Proof.
  destruct e as [data|f idx v| | |f text]; simpl.
  - by intros [= <-].
  - destruct (PerField.get f (resolvers app)) as [[k inst]|]; [|done].
    destruct (pendingChanges (hooks app)) as [pc|]; [|done].
    destruct (has_buttons inst idx); [|done].
    intros [= <-]. by eexists pc, _, _.
  - case_bool_decide as Hpc; [done|]. intros [= <-]. split; [|done].
    by destruct (pendingChanges (hooks app)).
  - case_bool_decide as Hpc; [done|]. intros [= <-]. split; [|done].
    by destruct (pendingChanges (hooks app)).
  - destruct (element f (hooks app)); [done|]. by intros [= <-].
Qed.

Lemma anyPending_set_pending f st :
  anyPending (PerField.set f pending st) = true.
Proof. apply anyPending_spec. exists f. apply get_set_eq. Qed.

(** After a resolving event the proposal is stored exactly when a field is
    pending. *)
Lemma resolving_step_discards app e app' :
  step app e = Some app' → resolving e = true →
  is_Some (pendingChanges (hooks app')) ↔ anyPending (status (hooks app')) = true.
Proof.
  intros Hs He. apply step_hooks in Hs.
  destruct e as [data|f idx v| | |f text]; try done.
  - destruct Hs as (pc & merged & allResolved & Hpc & ->).
    destruct (onChange_spec f pc merged allResolved (hooks app))
      as (_ & _ & -> & ->).
    rewrite Hpc. destruct allResolved.
    + rewrite bool_decide_eq_true_2 by (by case_bool_decide). simpl.
      destruct (anyPending _); simpl; [done|]. split; [by intros [? [=]]|done].
    + rewrite bool_decide_eq_false_2 by (by intros H; apply H). simpl.
      by rewrite anyPending_set_pending.
  - destruct Hs as [[pc Hpc] ->]. unfold acceptAll. rewrite Hpc. simpl.
    split; [by intros [? [=]]|done].
  - destruct Hs as [[pc Hpc] ->]. unfold declineAll. rewrite Hpc. simpl.
    split; [by intros [? [=]]|done].
Qed.

Lemma pending_needs_proposal app :
  reachable app →
  anyPending (status (hooks app)) = true → is_Some (pendingChanges (hooks app)).
Proof.
  induction 1 as [|app e app' Hr IH Hs]; [done|].
  destruct (resolving e) eqn:He.
  { by apply resolving_step_discards in Hs as ->. }
  apply step_hooks in Hs. destruct e as [data|f idx v| | |f text]; try done.
  - rewrite Hs. by eexists.
  - rewrite Hs. by destruct f.
Qed.

(** A stored proposal has a pending field, unless every field is
    unchanged: the handlers of the resolvers and the two bulk operations
    discard the proposal with the last pending field, the effect that
    stores it does not look at the statuses it computes. *)
Lemma stored_proposal_cases app :
  reachable app →
  is_Some (pendingChanges (hooks app)) →
  anyPending (status (hooks app)) = true
  ∨ status (hooks app) = PerField.mk unchanged unchanged unchanged.
Proof.
  induction 1 as [|app e app' Hr IH Hs]; [by intros [? [=]]|].
  destruct (resolving e) eqn:He.
  { intros Hp. left. by apply (resolving_step_discards _ _ _ Hs He). }
  apply step_hooks in Hs. destruct e as [data|f idx v| | |f text]; try done.
  - rewrite Hs. intros _. unfold incoming. simpl.
    destruct (bool_decide (recipient _ ≠ _)); [by left|].
    destruct (bool_decide (subject _ ≠ _)); [by left|].
    destruct (bool_decide (body _ ≠ _)); [by left|by right].
  - rewrite Hs. by destruct f.
Qed.

(** C3. The code does not do what the claim says when a proposal arrives
    that proposes the current value of every field. On a freshly mounted
    component (all three fields empty) the proposal of three empty texts
    is stored, with every status unchanged: the proposal is non-null and
    no field is pending. No resolver is mounted, yet the Accept All and
    Decline All buttons are rendered. The effect computes the statuses
    and leaves out the call of [resolveIfDone] that the three [onChange]
    handlers make on the statuses they compute; that call would have
    discarded the proposal. *)
Theorem unchanged_proposal_is_not_discarded :
  let data : ContactData := PerField.mk [] [] [] in
  ∃ app,
    step start (Incoming data) = Some app
    ∧ reachable app
    ∧ pendingChanges (hooks app) = Some data
    ∧ status (hooks app) = PerField.mk unchanged unchanged unchanged
    ∧ ¬ (is_Some (pendingChanges (hooks app))
         ↔ anyPending (status (hooks app)) = true)
    ∧ resolvers app = PerField.mk None None None
    ∧ is_Some (step app AcceptAll) ∧ is_Some (step app DeclineAll)
    ∧ pendingChanges (resolveIfDone (status (hooks app)) (hooks app)) = None.
Proof.
  intros data. eexists.
  match goal with |- step ?a ?e = Some ?a' ∧ _ =>
    assert (step a e = Some a') as H by (vm_compute; reflexivity) end.
  split; [exact H|]. split; [exact (reachable_step _ _ _ reachable_start H)|].
  split; [reflexivity|]. split; [reflexivity|].
  split; [intros [Hd _]; by specialize (Hd (mk_is_Some _ _ eq_refl))|].
  split; [reflexivity|].
  split; [eexists; vm_compute; reflexivity|].
  split; [eexists; vm_compute; reflexivity|reflexivity].
Qed.

(** ** Resolvers are remounted when their texts change *)

Lemma key_of_inj_current f v v' p : key_of f v p = key_of f v' p → v = v'.
Proof.
  unfold key_of. intros H%app_inv_head. by apply app_inv_tail in H.
Qed.

Lemma key_of_inj_proposed f v p p' : key_of f v p = key_of f v p' → p = p'.
Proof.
  unfold key_of. intros H%app_inv_head%app_inv_head. by apply app_inv_head in H.
Qed.

Lemma element_Some f s k b a :
  element f s = Some (k, b, a) →
  ∃ pc, pendingChanges s = Some pc
        ∧ PerField.get f (status s) = pending
        ∧ b = value_of f s ∧ a = PerField.get f pc ∧ k = key_of f b a.
Proof.
  unfold element. destruct (pendingChanges s) as [pc|]; [|done].
  case_bool_decide; [|done]. intros [= <- <- <-]. by exists pc.
Qed.

Lemma mount_ok b a : instance_ok (mount b a).
Proof.
  split; [done|]. intros idx. simpl. rewrite lookup_initDecisions.
  case_decide; split; done.
Qed.

Lemma rerender_same inst :
  ops inst = groupOps (before inst) (after inst) →
  rerender inst (before inst) (after inst) = inst.
Proof.
  intros _. unfold rerender. rewrite bool_decide_eq_true_2 by done.
  by destruct inst.
Qed.

Lemma render_resolver f s' olds :
  PerField.get f (resolvers (render s' olds))
  = reconcile (PerField.get f olds) (element f s').
Proof. by destruct f. Qed.

(** Reconciling against an instance whose key can only come back with its
    own texts: the result is rendered as asked, and is either a fresh mount
    or the old instance, untouched. *)
Lemma reconcile_ok f s' old :
  (∀ k inst, old = Some (k, inst) →
     instance_ok inst
     ∧ ∀ b a, element f s' = Some (k, b, a) → b = before inst ∧ a = after inst) →
  consistent f s' (reconcile old (element f s'))
  ∧ ∀ k' inst', reconcile old (element f s') = Some (k', inst') →
      inst' = mount (before inst') (after inst') ∨ old = Some (k', inst').
Proof.
  intros Hold. destruct (element f s') as [[[k b] a]|] eqn:He; [|done].
  assert (consistent f s' (Some (k, mount b a))
          ∧ ∀ k' inst', Some (k, mount b a) = Some (k', inst') →
              inst' = mount (before inst') (after inst') ∨ old = Some (k', inst'))
    as Hmount.
  { split; [split; [done|apply mount_ok]|]. intros k' inst' [= <- <-]. by left. }
  destruct old as [[k0 inst]|]; [|done]. simpl.
  case_bool_decide as Hk; [|done]. subst k0.
  destruct (Hold k inst eq_refl) as [Hok Hsame].
  destruct (Hsame b a eq_refl) as [-> ->].
  rewrite rerender_same by apply Hok.
  split; [done|]. intros k' inst' [= <- <-]. by right.
Qed.

(** What a render keeps and rebuilds, when at most one of the two texts of
    a field has changed since the last render. *)
Lemma render_ok app s' olds :
  app_consistent app →
  (∀ f k inst, PerField.get f olds = Some (k, inst) →
     instance_ok inst
     ∧ ∃ inst0, PerField.get f (resolvers app) = Some (k, inst0)
                ∧ before inst = before inst0 ∧ after inst = after inst0) →
  (∀ f pc pc', pendingChanges (hooks app) = Some pc → pendingChanges s' = Some pc' →
     value_of f s' = value_of f (hooks app)
     ∨ PerField.get f pc' = PerField.get f pc) →
  ∀ f,
    consistent f s' (PerField.get f (resolvers (render s' olds)))
    ∧ ∀ k' inst', PerField.get f (resolvers (render s' olds)) = Some (k', inst') →
        inst' = mount (before inst') (after inst')
        ∨ ∃ k inst, PerField.get f (resolvers app) = Some (k, inst)
                    ∧ before inst = before inst' ∧ after inst = after inst'.
Proof.
  intros Happ Holds Hone f. rewrite render_resolver.
  destruct (reconcile_ok f s' (PerField.get f olds)) as [Hc Hfresh].
  - intros k inst Hold. destruct (Holds f k inst Hold) as (Hok & inst0 & H0 & Hb & Ha).
    split; [done|]. intros b a He.
    apply element_Some in He as (pc' & Hpc' & _ & -> & -> & Hk).
    specialize (Happ f). rewrite H0 in Happ. destruct Happ as [He0 _].
    apply element_Some in He0 as (pc & Hpc & _ & Hb0 & Ha0 & Hk0).
    rewrite Hb, Ha, Hb0, Ha0.
    assert (key_of f (value_of f s') (PerField.get f pc')
            = key_of f (value_of f (hooks app)) (PerField.get f pc)) as Hkey
      by congruence.
    destruct (Hone f pc pc' Hpc Hpc') as [Hv|Hp].
    + rewrite Hv in Hkey |- *. by apply key_of_inj_proposed in Hkey as ->.
    + rewrite Hp in Hkey |- *. by apply key_of_inj_current in Hkey as ->.
  - split; [done|]. intros k' inst' Hr.
    destruct (Hfresh k' inst' Hr) as [?|Hold]; [by left|right].
    destruct (Holds f k' inst' Hold) as (_ & inst0 & H0 & Hb & Ha). eauto.
Qed.

Lemma has_buttons_change inst idx :
  has_buttons inst idx = true → idx ∈ changeIdxs (ops inst).
Proof.
  unfold has_buttons. intros H. apply elem_of_changeIdxs.
  destruct (ops inst !! idx) as [[v|b a]|]; [done| |done]. eauto.
Qed.

Lemma with_decisions_ok next r k inst idx v :
  with_decisions next r = Some (k, inst) →
  (∀ k0 inst0, r = Some (k0, inst0) →
     instance_ok inst0 ∧ has_buttons inst0 idx = true
     ∧ next = <[idx := decision_of v]> (decisions inst0)) →
  instance_ok inst
  ∧ ∃ inst0, r = Some (k, inst0) ∧ before inst = before inst0
             ∧ after inst = after inst0.
Proof.
  destruct r as [[k0 inst0]|]; [|done]. simpl. intros [= <- <-] H.
  destruct (H k0 inst0 eq_refl) as ([Hops Hdom] & Hb%has_buttons_change & ->).
  split; [|by exists inst0]. split; [done|]. simpl. intros i.
  rewrite lookup_insert. case_decide; [|apply Hdom].
  subst. split; [done|]. by eexists.
Qed.

(** Every event changes at most one of the two texts a resolver is keyed
    on: a decision and typing change the current value, a delivery changes
    the proposed one. *)
Lemma one_text_at_a_time app e app' f pc pc' :
  step app e = Some app' →
  pendingChanges (hooks app) = Some pc → pendingChanges (hooks app') = Some pc' →
  value_of f (hooks app') = value_of f (hooks app)
  ∨ PerField.get f pc' = PerField.get f pc.
Proof.
  intros Hs%step_hooks Hpc Hpc'.
  destruct e as [data|g idx v| | |g text].
  - left. rewrite Hs. by destruct f.
  - right. destruct Hs as (pc0 & merged & allResolved & Hpc0 & Hh).
    rewrite Hh in Hpc'.
    destruct (onChange_spec g pc0 merged allResolved (hooks app)) as (_ & _ & _ & Hp).
    rewrite Hp in Hpc'. destruct (_ && _); [done|]. congruence.
  - destruct Hs as [_ Hh]. rewrite Hh in Hpc'. unfold acceptAll in Hpc'.
    by rewrite Hpc in Hpc'.
  - destruct Hs as [_ Hh]. rewrite Hh in Hpc'. unfold declineAll in Hpc'.
    by rewrite Hpc in Hpc'.
  - right. rewrite Hs in Hpc'.
    assert (pendingChanges (set_value g text (hooks app)) = pendingChanges (hooks app))
      as Heq by by destruct g.
    congruence.
Qed.

Lemma consistent_instance_ok app f k inst :
  app_consistent app → PerField.get f (resolvers app) = Some (k, inst) →
  instance_ok inst.
Proof. intros H Hf. specialize (H f). rewrite Hf in H. apply H. Qed.

(** Every event ends in a render against the instances that were mounted,
    of which at most the decision store of one has changed. *)
Lemma step_olds app e app' :
  app_consistent app → step app e = Some app' →
  ∃ olds,
    app' = render (hooks app') olds
    ∧ ∀ f k inst, PerField.get f olds = Some (k, inst) →
        instance_ok inst
        ∧ ∃ inst0, PerField.get f (resolvers app) = Some (k, inst0)
                   ∧ before inst = before inst0 ∧ after inst = after inst0.
Proof.
  intros Happ Hs.
  assert (∀ f k inst, PerField.get f (resolvers app) = Some (k, inst) →
            instance_ok inst
            ∧ ∃ inst0, PerField.get f (resolvers app) = Some (k, inst0)
                       ∧ before inst = before inst0 ∧ after inst = after inst0)
    as Hsame.
  { intros f k inst Hf. split; [by eapply consistent_instance_ok|by exists inst]. }
  destruct e as [data|g idx v| | |g text]; simpl in Hs.
  - injection Hs as <-. by exists (resolvers app).
  - destruct (PerField.get g (resolvers app)) as [[k0 inst0]|] eqn:Hg; [|done].
    destruct (pendingChanges (hooks app)) as [pc|]; [|done].
    destruct (has_buttons inst0 idx) eqn:Hb; [|done].
    injection Hs as <-. eexists. split; [reflexivity|].
    intros f k inst. destruct (decide (f = g)) as [->|Hne].
    + rewrite get_set_eq, Hg. intros Hw.
      apply (with_decisions_ok _ (Some (k0, inst0)) k inst idx v Hw).
      intros k1 inst1 [= <- <-]. split_and!; [|done..].
      by eapply consistent_instance_ok.
    + rewrite get_set_ne by done. apply Hsame.
  - case_bool_decide; [done|]. injection Hs as <-. by exists (resolvers app).
  - case_bool_decide; [done|]. injection Hs as <-. by exists (resolvers app).
  - destruct (element g (hooks app)); [done|].
    injection Hs as <-. by exists (resolvers app).
Qed.

Lemma step_consistent app e app' :
  app_consistent app → step app e = Some app' →
  ∀ f,
    consistent f (hooks app') (PerField.get f (resolvers app'))
    ∧ ∀ k' inst', PerField.get f (resolvers app') = Some (k', inst') →
        inst' = mount (before inst') (after inst')
        ∨ ∃ k inst, PerField.get f (resolvers app) = Some (k, inst)
                    ∧ before inst = before inst' ∧ after inst = after inst'.
Proof.
  intros Happ Hs.
  destruct (step_olds app e app' Happ Hs) as (olds & Hr & Holds).
  intros f.
  assert (∀ f pc pc', pendingChanges (hooks app) = Some pc →
            pendingChanges (hooks app') = Some pc' →
            value_of f (hooks app') = value_of f (hooks app)
            ∨ PerField.get f pc' = PerField.get f pc) as Hone.
  { intros g pc pc'. by apply one_text_at_a_time with e. }
  pose proof (render_ok app (hooks app') olds Happ Holds Hone f) as H.
  by rewrite <- Hr in H.
Qed.

Lemma reachable_consistent app : reachable app → app_consistent app.
Proof.
  induction 1 as [|app e app' _ IH Hs]; [by intros []|].
  intros f. by apply (step_consistent app e app').
Qed.

(** C7. After every event, a mounted resolver has the operation list of
    the pair of texts it is rendered with, and its decision store has
    exactly the indices of the change-ops of that list. If the resolver
    was not mounted before the event, or was mounted with another pair of
    texts, the store is the initial one: every change-op is pending. So no
    decision made on one operation list is read against another. *)
Theorem decisions_rebuilt_with_operations (app app' : App) (e : Event)
    (f : Field) (k' : jsstring) (inst' : Instance) :
  reachable app → step app e = Some app' →
  PerField.get f (resolvers app') = Some (k', inst') →
  (∃ pc, pendingChanges (hooks app') = Some pc
         ∧ before inst' = value_of f (hooks app')
         ∧ after inst' = PerField.get f pc)
  ∧ ops inst' = groupOps (before inst') (after inst')
  ∧ (∀ idx, is_Some (decisions inst' !! idx) ↔ idx ∈ changeIdxs (ops inst'))
  ∧ ((∀ k inst, PerField.get f (resolvers app) = Some (k, inst) →
        (before inst, after inst) ≠ (before inst', after inst')) →
     ∀ idx, decisions inst' !! idx
            = if decide (idx ∈ changeIdxs (ops inst'))
              then Some Resolver.pending else None).
Proof.
  intros Hr%reachable_consistent Hs Hf.
  destruct (step_consistent app e app' Hr Hs f) as [Hc Hfresh].
  rewrite Hf in Hc. destruct Hc as [He [Hops Hdom]].
  apply element_Some in He as (pc & Hpc & _ & Hb & Ha & _).
  split_and!; [by exists pc|done..|].
  intros Hchanged idx.
  destruct (Hfresh k' inst' Hf) as [Hm|(k & inst & Hold & Hb' & Ha')].
  - rewrite Hm. simpl. apply lookup_initDecisions.
  - exfalso. apply (Hchanged k inst Hold). by rewrite Hb', Ha'.
Qed.

Lemma decisions_rebuilt_with_operations_witness :
  ∃ app app' k k' inst inst',
    run start [Edit Email (str "a b c d e");
               Incoming (PerField.mk (str "x b y d z") [] []);
               Decide Email 2 Decline] = Some app
    ∧ PerField.get Email (resolvers app) = Some (k, inst)
    ∧ ops inst = [ChangeOp (str "a") (str "x"); EqualOp (str " b ");
                  ChangeOp (str "c") (str "y"); EqualOp (str " d ");
                  ChangeOp (str "e") (str "z")]
    ∧ decisions inst !! 2 = Some decline
    ∧ step app (Decide Email 0 Accept) = Some app'
    ∧ PerField.get Email (resolvers app') = Some (k', inst')
    ∧ before inst' = str "x b c d e"
    ∧ ops inst' = [EqualOp (str "x b "); ChangeOp (str "c") (str "y");
                   EqualOp (str " d "); ChangeOp (str "e") (str "z")]
    ∧ ∀ idx, decisions inst' !! idx
             = if decide (idx ∈ changeIdxs (ops inst'))
               then Some Resolver.pending else None.
Proof.
  do 6 eexists.
  match goal with |- run ?a ?es = Some ?a' ∧ _ =>
    assert (run a es = Some a') as Hrun by (vm_compute; reflexivity) end.
  pose proof (run_reachable _ _ _ reachable_start Hrun) as Hr.
  split; [exact Hrun|]. split; [vm_compute; reflexivity|].
  split; [vm_compute; reflexivity|]. split; [vm_compute; reflexivity|].
  match goal with |- step ?a ?e = Some ?a' ∧ _ =>
    assert (step a e = Some a') as Hs by (vm_compute; reflexivity) end.
  split; [exact Hs|].
  match goal with |- ?g = Some (?k, ?i) ∧ _ =>
    assert (g = Some (k, i)) as Hf by (vm_compute; reflexivity) end.
  split; [exact Hf|].
  destruct (decisions_rebuilt_with_operations _ _ _ _ _ _ Hr Hs Hf)
    as (_ & _ & _ & Hfresh).
  split; [reflexivity|]. split; [vm_compute; reflexivity|].
  apply Hfresh. intros k inst [= <- <-]. by vm_compute.
Defined.

(** ** Trailing white space of the new text *)

Lemma trailing_ws_spec s :
  ∃ core, s = core ++ trailing_ws s
          ∧ forallb is_space (trailing_ws s) = true
          ∧ ∀ c, last core = Some c → is_space c = false.
Proof.
  induction s as [|c r (core & Hr & Hsp & Hlast)].
  { by exists []. }
  cbn [trailing_ws]. destruct (forallb is_space (c :: r)) eqn:Hall.
  { by exists []. }
  exists (c :: core). split_and!; [simpl; by rewrite <- Hr|done|].
  intros c'. destruct core as [|c1 core]; [|apply Hlast].
  simpl. intros [= <-]. simpl in Hr, Hall. rewrite Hr, Hsp in Hall.
  by apply andb_false_iff in Hall as [?|?].
Qed.

Lemma addCore_spec a :
  a = take (length a - length (trailing_ws a)) a ++ trailing_ws a
  ∧ ∀ c, last (take (length a - length (trailing_ws a)) a) = Some c →
         is_space c = false.
Proof.
  destruct (trailing_ws_spec a) as (core & Ha & _ & Hlast).
  assert (take (length a - length (trailing_ws a)) a = core) as ->; [|done].
  rewrite Ha at 1 3. rewrite length_app.
  replace (length core + length (trailing_ws a) - length (trailing_ws a))
    with (length core) by lia.
  by rewrite take_app_length.
Qed.

Lemma when_text t s :
  span_text s = t → concat (span_text <$> when t s) = t.
Proof.
  intros <-. unfold when. case_bool_decide as H; simpl; [done|].
  by rewrite app_nil_r.
Qed.

Lemma clipMiddle_nil : clipMiddle [] = [].
Proof. done. Qed.

(** C4, as the code has it. The white space at the end of the new text of
    a change-op is split off for rendering: while the op is pending or
    accepted, the marked (or padded) fragment is the new text without that
    white space, which follows in a plain element. A declined op shows its
    old text only. The merge does not split: it takes the whole new text of
    an accepted op, and the old text of a pending or declined op. *)
Theorem trailing_space_is_rendered_plain (decisions : gmap nat Decision)
    (idx : nat) (b a : jsstring) :
  let trailing := trailing_ws a in
  let addCore := take (length a - length trailing) a in
  let op := ChangeOp b a in
  a = addCore ++ trailing
  ∧ forallb is_space trailing = true
  ∧ (∀ c, last addCore = Some c → is_space c = false)
  ∧ match decisions !! idx with
    | Some accept =>
        render_op decisions idx op = [Padded addCore] ++ when trailing (Plain trailing)
        ∧ op_text decisions idx op = a
        ∧ merge_op decisions idx op = a
    | Some decline =>
        render_op decisions idx op = [Padded b]
        ∧ op_text decisions idx op = b
        ∧ merge_op decisions idx op = b
    | _ =>
        render_op decisions idx op
        = when b (Struck (clipMiddle b) b) ++ when addCore (Marked addCore)
          ++ when trailing (Plain trailing) ++ [Buttons idx]
        ∧ op_text decisions idx op = clipMiddle b ++ a
        ∧ merge_op decisions idx op = b
    end.
Proof.
  intros trailing addCore op.
  destruct (addCore_spec a) as [Ha Hlast]. fold trailing addCore in Ha, Hlast.
  destruct (trailing_ws_spec a) as (_ & _ & Hsp & _).
  split_and!; [done..|].
  assert (concat (span_text <$> when trailing (Plain trailing)) = trailing)
    as Ht by by apply when_text.
  assert (concat (span_text <$> when addCore (Marked addCore)) = addCore)
    as Hc by by apply when_text.
  assert (concat (span_text <$> when b (Struck (clipMiddle b) b)) = clipMiddle b)
    as Hb.
  { unfold when. case_bool_decide as H; [by rewrite H|]. simpl. by rewrite app_nil_r. }
  assert (op_text decisions idx op
          = concat (span_text <$> render_op decisions idx op)) as Htext by done.
  unfold op, render_op, merge_op in *. fold trailing addCore in Htext |- *.
  destruct (decisions !! idx) as [[]|]; rewrite Htext;
    (split_and!; [done| |done]);
    rewrite ?fmap_app, ?concat_app, ?Ht, ?Hc, ?Hb; simpl;
    rewrite ?app_nil_r; congruence.
Qed.

(** C4 as stated fails: the trailing white space of the new text is not
    part of what a declined op shows or merges, nor of what a pending op
    merges. The insertion of ["very "] in the scenario of the
    specification is the example. *)
Lemma declined_change_drops_trailing_space :
  let op := ChangeOp [] (str "very ") in
  let declined : gmap nat Decision := {[ 3 := decline ]} in
  let undecided : gmap nat Decision := {[ 3 := Resolver.pending ]} in
  groupOps (str "Dear Professor Smith, I am interested.")
           (str "Dear Dr. Smith, I am very interested.") !! 3 = Some op
  ∧ trailing_ws (str "very ") = str " "
  ∧ ¬ (trailing_ws (str "very ") `suffix_of` op_text declined 3 op)
  ∧ ¬ (trailing_ws (str "very ") `suffix_of` merge_op declined 3 op)
  ∧ ¬ (trailing_ws (str "very ") `suffix_of` merge_op undecided 3 op).
Proof.
  intros op declined undecided.
  split; [by vm_compute|]. split; [by vm_compute|].
  split_and!; intros [k Hk]; vm_compute in Hk; by destruct k.
Qed.

(** * Further properties of the engine *)

(** ** The tokens are the maximal runs of the input *)

Lemma tok_class_snoc ws tok c :
  tok_class ws tok → is_space c = ws → tok_class ws (tok ++ [c]).
Proof.
  intros [Hne Hall] Hc. split; [by destruct tok|].
  intros c' [?|Hc'%list_elem_of_singleton]%elem_of_app; subst; auto.
Qed.

Lemma scan_runs s : ∀ ws tok, tok_class ws tok → runs ws (scan ws tok s).
Proof.
  induction s as [|c s IH]; intros ws tok Htok; simpl; [done|].
  case_bool_decide as Hc.
  - apply IH. by apply tok_class_snoc.
  - split; [done|]. replace (negb ws) with (is_space c)
      by (destruct (is_space c) eqn:E, ws; simpl; congruence).
    apply IH. split; [done|]. by intros c' Hc'%list_elem_of_singleton; subst.
Qed.

Lemma scan_same_class ws t : ∀ tok s,
  (∀ c, c ∈ t → is_space c = ws) → scan ws tok (t ++ s) = scan ws (tok ++ t) s.
Proof.
  induction t as [|c t IH]; intros tok s Hall; simpl.
  { by rewrite app_nil_r. }
  rewrite bool_decide_eq_true_2 by (apply Hall; left).
  rewrite IH by (intros c' Hc'; apply Hall; by right).
  by rewrite <- app_assoc.
Qed.

Lemma scan_of_runs rest : ∀ ws tok,
  tok_class ws tok → runs (negb ws) rest →
  scan ws tok (concat rest) = tok :: rest.
Proof.
  induction rest as [|t rest IH]; intros ws tok Htok Hrest; simpl; [done|].
  destruct Hrest as [[Hne Hall] Hrest].
  destruct t as [|c t]; [done|]. simpl.
  rewrite bool_decide_eq_false_2.
  2:{ rewrite (Hall c) by left. by destruct ws. }
  rewrite (Hall c) by left. f_equal.
  rewrite (scan_same_class (negb ws) t) by (intros c' Hc'; apply Hall; by right).
  by apply IH.
Qed.

(** X1. The tokens of a string are non-empty, each is made of white space
    only or of no white space at all, two neighbouring tokens are never of
    the same class, and together they spell the string. The empty string,
    and only it, has no token. *)
Theorem tokens_are_maximal_runs (s : jsstring) :
  concat (tokenize s) = s
  ∧ (∃ ws, runs ws (tokenize s))
  ∧ Forall (λ t, t ≠ []) (tokenize s)
  ∧ (tokenize s = [] ↔ s = []).
Proof.
  split; [apply tokenize_concat|].
  assert (∃ ws, runs ws (tokenize s)) as [ws Hruns].
  { destruct s as [|c s]; [by exists true|]. exists (is_space c). simpl.
    apply scan_runs. split; [done|]. by intros c' Hc'%list_elem_of_singleton; subst. }
  split; [by exists ws|]. split.
  - revert ws Hruns. induction (tokenize s) as [|t l IH]; intros ws Hr; [done|].
    destruct Hr as [[Hne _] Hr]. constructor; [done|]. by eapply IH.
  - split; [|by intros ->]. intros Hnil.
    rewrite <- (tokenize_concat s). by rewrite Hnil.
Qed.

(** X2. Tokenizing is the only way to cut a string into alternating runs:
    the tokens of the concatenation of such runs are the runs themselves. *)
Theorem tokenize_of_runs (ws : bool) (toks : list jsstring) :
  runs ws toks → tokenize (concat toks) = toks.
Proof.
  destruct toks as [|t rest]; [done|]. intros [[Hne Hall] Hrest].
  destruct t as [|c t]; [done|]. simpl.
  rewrite (scan_same_class (is_space c) t).
  - apply scan_of_runs.
    + split; [done|]. intros c' Hc'. rewrite (Hall c) by left. by apply Hall.
    + by rewrite (Hall c) by left.
  - intros c' Hc'. rewrite (Hall c) by left. apply Hall. by right.
Qed.

Lemma tokenize_of_runs_witness :
  let toks := [str "Dear"; str " "; str "Dr."; str "  "] in
  runs false toks ∧ tokenize (concat toks) = toks.
Proof.
  intros toks.
  assert (runs false toks) as H.
  { repeat split; try done; intros c Hc; vm_compute in Hc;
      repeat (apply elem_of_cons in Hc as [->|Hc]; [reflexivity|]);
      by apply elem_of_nil in Hc. }
  split; [exact H|]. exact (tokenize_of_runs false toks H).
Defined.

(** ** The score table and the alignment *)

(** X3. The table [lcsTable a b] has [length a + 1] rows of [length b + 1]
    cells, and cell [(i, j)] is the length of a longest common subsequence
    of the tokens of [a] from [i] on and of [b] from [j] on: some common
    subsequence has that length and none is longer. In particular
    [dp[0][0]] is the length of a longest common subsequence of [a] and
    [b]. *)
Theorem lcsTable_holds_lcs_lengths (a b : list jsstring) :
  table_shape (length a) (length b) (lcsTable a b)
  ∧ ∀ i j,
      (∃ s, s `sublist_of` drop i a ∧ s `sublist_of` drop j b
            ∧ length s = dp_get (lcsTable a b) i j)
      ∧ ∀ s, s `sublist_of` drop i a → s `sublist_of` drop j b →
             length s ≤ dp_get (lcsTable a b) i j.
Proof.
  split.
  - unfold lcsTable.
    destruct (fill_rows a b (replicate (length a + 1) (replicate (length b + 1) 0))
                (length a) 0) as (Hshape & _ & _); [lia| | | |done].
    + split; [by rewrite length_replicate|].
      intros i' row [-> _]%lookup_replicate. by rewrite length_replicate.
    + intros i' j' Hi. unfold cell_ok.
      by rewrite dp_get_zeros, drop_ge, lcs_length_nil_l.
    + intros i' j' Hj. unfold cell_ok.
      by rewrite dp_get_zeros, (drop_ge b), lcs_length_nil_r.
  - intros i j. rewrite (lcsTable_spec a b i j). split.
    + apply lcs_length_attained.
    + apply lcs_length_upper.
Qed.

(** X4. The segments of [diffWords oldText newText] cover both texts: the
    values of the equal and removed segments, in order, spell the old text,
    and the values of the equal and added segments spell the new text. *)
Theorem diff_segments_cover_both_texts (oldText newText : jsstring) :
  segs_before (diffWords oldText newText) = oldText
  ∧ segs_after (diffWords oldText newText) = newText.
Proof. split; [apply diffWords_before|apply diffWords_after]. Qed.

Lemma equal_text_app l1 l2 : equal_text (l1 ++ l2) = equal_text l1 ++ equal_text l2.
Proof. unfold equal_text. by rewrite filter_app, fmap_app, concat_app. Qed.

Lemma equal_text_one s :
  equal_text [s] = if bool_decide (type s = equal) then value s else [].
Proof.
  unfold equal_text. case_bool_decide.
  - rewrite filter_cons_True by done. simpl. by rewrite app_nil_r.
  - by rewrite filter_cons_False by done.
Qed.

Lemma push_equal_text segs ty v :
  equal_text (push segs ty v)
  = equal_text segs ++ if bool_decide (ty = equal) then v else [].
Proof.
  destruct (decide (v = [])) as [->|Hv].
  { unfold push. simpl. case_bool_decide; by rewrite app_nil_r. }
  destruct (push_cases segs ty v Hv) as [(l & x & -> & Hty & ->)| ->];
    rewrite !equal_text_app, !equal_text_one; simpl.
  - rewrite Hty. case_bool_decide; by rewrite <- ?app_assoc, ?app_nil_r.
  - done.
Qed.

Lemma foldl_push_equal_text ty toks : ∀ segs,
  ty ≠ equal →
  equal_text (foldl (λ segs t, push segs ty t) segs toks) = equal_text segs.
Proof.
  induction toks as [|t toks IH]; intros segs Hty; simpl; [done|].
  rewrite IH, push_equal_text by done.
  by rewrite bool_decide_eq_false_2, app_nil_r.
Qed.

(** With the finished table, the tokens the walk pushes as equal from
    [(i, j)] on are a longest common subsequence of what is left of the two
    inputs. *)
Lemma walk_equal_is_lcs a b fuel : ∀ i j segs i' j' segs',
  (length a - i) + (length b - j) ≤ fuel →
  walk fuel a b (lcsTable a b) i j segs = (i', j', segs') →
  ∃ s, s `sublist_of` drop i a ∧ s `sublist_of` drop j b
       ∧ length s = lcs_length (drop i a) (drop j b)
       ∧ equal_text segs' = equal_text segs ++ concat s.
Proof.
  induction fuel as [|fuel IH]; intros i j segs i' j' segs' Hf; simpl.
  { intros [= <- <- <-]. exists []. rewrite app_nil_r.
    split_and!; [apply sublist_nil_l..| |done].
    destruct (decide (length a ≤ i)).
    - by rewrite drop_ge, lcs_length_nil_l.
    - by rewrite (drop_ge b), lcs_length_nil_r by lia. }
  destruct (bool_decide (i < length a) && bool_decide (j < length b)) eqn:Hc.
  2:{ intros [= <- <- <-]. exists []. rewrite app_nil_r.
      split_and!; [apply sublist_nil_l..| |done].
      apply andb_false_iff in Hc as [Hc%bool_decide_eq_false|Hc%bool_decide_eq_false].
      - by rewrite drop_ge, lcs_length_nil_l by lia.
      - by rewrite (drop_ge b), lcs_length_nil_r by lia. }
  apply andb_prop in Hc as [Hi%bool_decide_eq_true Hj%bool_decide_eq_true].
  destruct (lookup_lt_is_Some_2 a i Hi) as [x Hx].
  destruct (lookup_lt_is_Some_2 b j Hj) as [y Hy].
  rewrite (lookup_total_Some _ _ _ Hx), (lookup_total_Some _ _ _ Hy).
  rewrite (lcsTable_spec a b (i + 1) j), (lcsTable_spec a b i (j + 1)).
  rewrite (drop_S a x i Hx), (drop_S b y j Hy), lcs_length_cons.
  replace (i + 1) with (S i) by lia. replace (j + 1) with (S j) by lia.
  rewrite Hx, Hy. case_bool_decide as Heq.
  - injection Heq as <-. rewrite bool_decide_eq_true_2 by done.
    intros (s & Ha & Hb & Hlen & Ht)%IH; [|lia].
    exists (x :: s). split_and!; [by apply sublist_skip..|simpl; lia|].
    rewrite Ht, push_equal_text, bool_decide_eq_true_2 by done.
    simpl. by rewrite <- app_assoc.
  - rewrite (bool_decide_eq_false_2 (x = y)) by congruence.
    case_bool_decide as Hge.
    + intros (s & Ha & Hb & Hlen & Ht)%IH; [|lia].
      rewrite (drop_S b y j Hy) in Hb, Hlen.
      exists s. split_and!; [by apply sublist_cons|done|lia|].
      by rewrite Ht, push_equal_text, bool_decide_eq_false_2, app_nil_r.
    + intros (s & Ha & Hb & Hlen & Ht)%IH; [|lia].
      rewrite (drop_S a x i Hx) in Ha, Hlen.
      exists s. split_and!; [done|by apply sublist_cons|lia|].
      by rewrite Ht, push_equal_text, bool_decide_eq_false_2, app_nil_r.
Qed.

(** X5. The diff is minimal: the text of the equal segments of
    [diffWords oldText newText] is spelled by a common subsequence of the
    tokens of the two texts, and no common subsequence of the tokens has
    more tokens than this one. *)
Theorem equal_segments_are_a_longest_common_subsequence (oldText newText : jsstring) :
  ∃ s,
    s `sublist_of` tokenize oldText ∧ s `sublist_of` tokenize newText
    ∧ equal_text (diffWords oldText newText) = concat s
    ∧ ∀ s', s' `sublist_of` tokenize oldText → s' `sublist_of` tokenize newText →
            length s' ≤ length s.
Proof.
  unfold diffWords.
  destruct (walk _ _ _ _ 0 0 []) as [[i j] segs] eqn:Hw.
  apply walk_equal_is_lcs in Hw as (s & Ha & Hb & Hlen & Ht); [|lia].
  rewrite !drop_0 in Ha, Hb, Hlen. exists s. split_and!; [done..| |].
  - by rewrite !foldl_push_equal_text, Ht.
  - intros s' Ha' Hb'. rewrite Hlen. by apply lcs_length_upper.
Qed.

(** ** Neighbours in a list *)

Lemma adjacent_app_l {A} (R : A → A → Prop) l1 l2 :
  adjacent R (l1 ++ l2) → adjacent R l1.
Proof.
  intros H i x y Hx Hy. apply (H i); by apply lookup_app_l_Some.
Qed.

Lemma adjacent_app_r {A} (R : A → A → Prop) l1 l2 :
  adjacent R (l1 ++ l2) → adjacent R l2.
Proof.
  intros H i x y Hx Hy. apply (H (length l1 + i)).
  - rewrite lookup_app_r by lia. by replace (length l1 + i - length l1) with i by lia.
  - rewrite lookup_app_r by lia.
    by replace (S (length l1 + i) - length l1) with (S i) by lia.
Qed.

Lemma adjacent_middle {A} (R : A → A → Prop) l1 x y l2 :
  adjacent R (l1 ++ x :: y :: l2) → R x y.
Proof.
  intros H. apply (H (length l1)).
  - by apply list_lookup_middle.
  - replace (l1 ++ x :: y :: l2) with ((l1 ++ [x]) ++ y :: l2)
      by (by rewrite <- app_assoc).
    apply list_lookup_middle. rewrite length_app. simpl. lia.
Qed.

Lemma adjacent_snoc {A} (R : A → A → Prop) l x :
  adjacent R l → (∀ y, last l = Some y → R y x) → adjacent R (l ++ [x]).
Proof.
  intros Hl Hlast i x1 y1 H1 H2.
  pose proof (lookup_lt_Some _ _ _ H2) as Hlen. rewrite length_app in Hlen.
  simpl in Hlen. destruct (decide (S i < length l)) as [Hi|Hi].
  - rewrite lookup_app_l in H1, H2 by lia. by apply (Hl i).
  - assert (S i = length l) as Hi' by lia.
    rewrite lookup_app_r in H2 by lia. rewrite Hi', Nat.sub_diag in H2.
    injection H2 as <-. rewrite lookup_app_l in H1 by lia.
    apply Hlast. rewrite last_lookup, <- Hi'. done.
Qed.

Lemma adjacent_snoc_inv {A} (R : A → A → Prop) l x :
  adjacent R (l ++ [x]) → adjacent R l ∧ ∀ y, last l = Some y → R y x.
Proof.
  intros H. split; [by eapply adjacent_app_l|].
  intros y [l' ->]%last_Some. rewrite <- app_assoc in H.
  by apply adjacent_middle in H.
Qed.

Lemma adjacent_cons_inv {A} (R : A → A → Prop) x l :
  adjacent R (x :: l) → adjacent R l ∧ ∀ y, head l = Some y → R x y.
Proof.
  intros H. split; [by apply (adjacent_app_r R [x])|].
  intros y [l' ->]%head_Some. by apply (adjacent_middle R []) in H.
Qed.

Lemma adjacent_cons {A} (R : A → A → Prop) x l :
  adjacent R l → (∀ y, head l = Some y → R x y) → adjacent R (x :: l).
Proof.
  intros Hl Hhead [|i] x1 y1 H1 H2.
  - simpl in H1, H2. injection H1 as <-. apply Hhead. by rewrite head_lookup.
  - by apply (Hl i).
Qed.

(** ** The shape of the segment list *)

Lemma push_cases_last segs ty v :
  v ≠ [] →
  (∃ l x, segs = l ++ [x] ∧ type x = ty
          ∧ push segs ty v = l ++ [{| value := value x ++ v; type := ty |}])
  ∨ (push segs ty v = segs ++ [{| value := v; type := ty |}]
     ∧ ∀ x, last segs = Some x → type x ≠ ty).
Proof.
  intros Hv. unfold push. rewrite bool_decide_eq_false_2 by done.
  destruct (last segs) as [x|] eqn:Hl; [|by right].
  apply last_Some in Hl as [l ->].
  case_bool_decide as Hty.
  - left. exists l, x. split_and!; [done..|].
    rewrite push_last_alter. by rewrite Hty.
  - right. split; [done|]. by intros x' [= <-].
Qed.

Lemma push_last segs ty v :
  v ≠ [] → ∃ x, last (push segs ty v) = Some x ∧ type x = ty.
Proof.
  intros Hv.
  destruct (push_cases_last segs ty v Hv) as [(l & x & -> & Hty & ->)|[-> _]];
    rewrite last_snoc; by eexists.
Qed.

Lemma push_values_nonempty segs ty v :
  Forall (λ s, value s ≠ []) segs → Forall (λ s, value s ≠ []) (push segs ty v).
Proof.
  intros Hs. destruct (decide (v = [])) as [->|Hv]; [done|].
  destruct (push_cases_last segs ty v Hv) as [(l & x & -> & Hty & ->)|[-> _]].
  - apply Forall_app in Hs as [Hl _]. apply Forall_app. split; [done|].
    repeat constructor. simpl. by destruct (value x).
  - apply Forall_app. split; [done|]. by repeat constructor.
Qed.

Lemma push_types_differ segs ty v :
  adjacent types_differ segs → adjacent types_differ (push segs ty v).
Proof.
  intros Hs. destruct (decide (v = [])) as [->|Hv]; [done|].
  destruct (push_cases_last segs ty v Hv) as [(l & x & -> & Hty & ->)|[-> Hl]].
  - apply adjacent_snoc_inv in Hs as [Hl Hx].
    apply adjacent_snoc; [done|]. intros y Hy. specialize (Hx y Hy).
    unfold types_differ in *. simpl. congruence.
  - apply adjacent_snoc; [done|]. intros y Hy. by apply Hl.
Qed.

Lemma push_not_added_then_removed segs ty v :
  adjacent not_added_then_removed segs →
  (ty = removed → ∀ x, last segs = Some x → type x ≠ added) →
  adjacent not_added_then_removed (push segs ty v).
Proof.
  intros Hs Hrem. destruct (decide (v = [])) as [->|Hv]; [done|].
  destruct (push_cases_last segs ty v Hv) as [(l & x & -> & Hty & ->)|[-> Hl]].
  - apply adjacent_snoc_inv in Hs as [Hl Hx].
    apply adjacent_snoc; [done|]. intros y Hy. specialize (Hx y Hy).
    unfold not_added_then_removed in *. simpl. by rewrite <- Hty.
  - apply adjacent_snoc; [done|]. intros y Hy [Hadd Hr]. simpl in Hr.
    by apply (Hrem Hr y Hy).
Qed.

(** What every [push] keeps, the walk and the two trailing loops keep. *)
Lemma walk_keeps (P : list DiffSegment → Prop) a b dp fuel :
  (∀ segs ty v, P segs → P (push segs ty v)) →
  ∀ i j segs i' j' segs',
    P segs → walk fuel a b dp i j segs = (i', j', segs') → P segs'.
Proof.
  intros Hpush. induction fuel as [|fuel IH]; intros i j segs i' j' segs' HP; simpl.
  { by intros [= <- <- <-]. }
  destruct (_ && _); [|by intros [= <- <- <-]].
  repeat case_bool_decide; apply IH; by apply Hpush.
Qed.

Lemma foldl_push_keeps (P : list DiffSegment → Prop) ty toks :
  (∀ segs v, P segs → P (push segs ty v)) →
  ∀ segs, P segs → P (foldl (λ segs t, push segs ty t) segs toks).
Proof.
  intros Hpush. induction toks as [|t toks IH]; intros segs HP; simpl; [done|].
  by apply IH, Hpush.
Qed.

(** X6. No segment of [diffWords] is empty and no two neighbouring
    segments have the same type: runs of the same type are merged as they
    are produced. *)
Theorem diff_segments_are_merged_runs (oldText newText : jsstring) :
  Forall (λ s, value s ≠ []) (diffWords oldText newText)
  ∧ adjacent types_differ (diffWords oldText newText).
Proof.
  unfold diffWords.
  destruct (walk _ _ _ _ 0 0 []) as [[i j] segs] eqn:Hw.
  split.
  - apply foldl_push_keeps; [intros; by apply push_values_nonempty|].
    apply foldl_push_keeps; [intros; by apply push_values_nonempty|].
    eapply (walk_keeps (Forall (λ s, value s ≠ []))); [|constructor|exact Hw].
    intros. by apply push_values_nonempty.
  - apply foldl_push_keeps; [intros; by apply push_types_differ|].
    apply foldl_push_keeps; [intros; by apply push_types_differ|].
    eapply (walk_keeps (adjacent types_differ)); [| |exact Hw].
    + intros. by apply push_types_differ.
    + by intros i' x y.
Qed.

Lemma lcs_length_mono_r a b y : lcs_length a b ≤ lcs_length a (y :: b).
Proof.
  destruct (lcs_length_attained a b) as (s & Ha & Hb & <-).
  apply lcs_length_upper; [done|]. by apply sublist_cons.
Qed.

Lemma push_last_type segs ty v x :
  v ≠ [] → last (push segs ty v) = Some x → type x = ty.
Proof.
  intros Hv Hl. destruct (push_last segs ty v Hv) as (x' & Hl' & Hty).
  congruence.
Qed.

(** After the walk has pushed a token as added, it does not push a token
    as removed before it has pushed one as equal: with the finished table,
    the choice of [b] over [a] at a mismatch repeats until the tokens
    match. *)
Lemma walk_removed_before_added a b fuel :
  Forall (λ t, t ≠ []) a → Forall (λ t, t ≠ []) b →
  ∀ i j segs i' j' segs',
    (length a - i) + (length b - j) ≤ fuel →
    adjacent not_added_then_removed segs →
    (∀ x, last segs = Some x → type x = added →
       i < length a ∧ j < length b
       ∧ (a !! i = b !! j
          ∨ lcs_length (drop (S i) a) (drop j b)
            < lcs_length (drop i a) (drop (S j) b))) →
    walk fuel a b (lcsTable a b) i j segs = (i', j', segs') →
    adjacent not_added_then_removed segs'
    ∧ ∀ x, last segs' = Some x → type x ≠ added.
Proof.
  intros Hna Hnb.
  induction fuel as [|fuel IH]; intros i j segs i' j' segs' Hf Hadj Hlast; simpl.
  { intros [= <- <- <-]. split; [done|]. intros x Hx Hty.
    destruct (Hlast x Hx Hty) as (? & ? & _). lia. }
  destruct (bool_decide (i < length a) && bool_decide (j < length b)) eqn:Hc.
  2:{ intros [= <- <- <-]. split; [done|]. intros x Hx Hty.
      destruct (Hlast x Hx Hty) as (Hi & Hj & _).
      by rewrite !bool_decide_eq_true_2 in Hc. }
  apply andb_prop in Hc as [Hi%bool_decide_eq_true Hj%bool_decide_eq_true].
  destruct (lookup_lt_is_Some_2 a i Hi) as [x Hx].
  destruct (lookup_lt_is_Some_2 b j Hj) as [y Hy].
  pose proof (proj1 (Forall_lookup _ _) Hna i x Hx) as Hxne.
  pose proof (proj1 (Forall_lookup _ _) Hnb j y Hy) as Hyne.
  rewrite (lookup_total_Some _ _ _ Hx), (lookup_total_Some _ _ _ Hy).
  rewrite (lcsTable_spec a b (i + 1) j), (lcsTable_spec a b i (j + 1)).
  replace (i + 1) with (S i) by lia. replace (j + 1) with (S j) by lia.
  case_bool_decide as Heq.
  - apply IH; [lia| |].
    + by apply push_not_added_then_removed.
    + intros x0 Hx0 Hty. by rewrite (push_last_type _ _ _ _ Hxne Hx0) in Hty.
  - case_bool_decide as Hge.
    + apply IH; [lia| |].
      * apply push_not_added_then_removed; [done|].
        intros _ x0 Hx0 Hty. destruct (Hlast x0 Hx0 Hty) as (_ & _ & [?|?]); [done|lia].
      * intros x0 Hx0 Hty. by rewrite (push_last_type _ _ _ _ Hxne Hx0) in Hty.
    + apply IH; [lia| |].
      * by apply push_not_added_then_removed.
      * intros _ _ _. split; [done|].
        destruct (decide (S j < length b)) as [Hj'|Hj'].
        2:{ rewrite (drop_ge b (S j)), lcs_length_nil_r in Hge by lia. lia. }
        split; [done|].
        destruct (lookup_lt_is_Some_2 b (S j) Hj') as [y' Hy'].
        destruct (decide (x = y')) as [->|Hne]; [left; congruence|right].
        pose proof (lcs_length_mono_r (drop (S i) a) (drop (S j) b) y) as Hmono.
        rewrite (drop_S b y j Hy) in Hge.
        rewrite (drop_S b y' (S j) Hy') in Hge, Hmono |- *.
        rewrite (drop_S a x i Hx) in Hge |- *.
        rewrite lcs_length_cons in Hge.
        rewrite (bool_decide_eq_false_2 (x = y')) in Hge by done. lia.
Qed.

Lemma tokens_nonempty_both x y :
  Forall (λ t, t ≠ []) (tokenize x) ∧ Forall (λ t, t ≠ []) (tokenize y).
Proof.
  assert (∀ s, Forall (λ t, t ≠ []) (tokenize s)) as H; [|by split].
  intros s. assert (∃ ws, runs ws (tokenize s)) as [ws Hruns].
  { destruct s as [|c s]; [by exists true|]. exists (is_space c). simpl.
    apply scan_runs. split; [done|]. by intros c' Hc'%list_elem_of_singleton; subst. }
  revert ws Hruns. induction (tokenize s) as [|t l IH]; intros ws Hr; [done|].
  destruct Hr as [[Hne _] Hr]. constructor; [done|]. by eapply IH.
Qed.

(** X7. In the segments of [diffWords], an added segment is never directly
    followed by a removed segment: where text is replaced, the removed run
    comes first and the added run second. *)
Theorem removed_segment_comes_before_added (oldText newText : jsstring) :
  adjacent not_added_then_removed (diffWords oldText newText).
Proof.
  unfold diffWords.
  destruct (tokens_nonempty_both oldText newText) as [Hna Hnb].
  destruct (walk _ _ _ _ 0 0 []) as [[i j] segs] eqn:Hw.
  apply walk_removed_before_added in Hw as [Hadj Hlast];
    [|done|done|lia|by intros ???|done].
  apply foldl_push_keeps.
  { intros. by apply push_not_added_then_removed. }
  apply (foldl_push_keeps
           (λ segs, adjacent not_added_then_removed segs
                    ∧ ∀ x, last segs = Some x → type x ≠ added));
    [|done].
  intros segs0 v [Hadj0 Hlast0]. split.
  - apply push_not_added_then_removed; [done|]. by intros _.
  - destruct (decide (v = [])) as [->|Hv]; [done|].
    intros x Hx. by rewrite (push_last_type _ _ _ _ Hv Hx).
Qed.

(** ** The shape of the operation list *)

Lemma group_nil fuel ops : group fuel [] ops = ops.
Proof. by destruct fuel. Qed.

Lemma group_app fuel : ∀ segs ops, group fuel segs ops = ops ++ group fuel segs [].
Proof.
  induction fuel as [|fuel IH]; intros segs ops; simpl.
  { by rewrite app_nil_r. }
  destruct segs as [|s rest]; [by rewrite app_nil_r|].
  case_bool_decide.
  - rewrite (IH rest (ops ++ _)), (IH rest [_]). by rewrite <- app_assoc.
  - destruct (collect removed [] (s :: rest)) as [r segs1].
    destruct (collect added [] segs1) as [ad segs2].
    destruct (_ || _); [|done].
    rewrite (IH segs2 (ops ++ _)), (IH segs2 [_]). by rewrite <- app_assoc.
Qed.

Lemma collect_stop ty acc segs s' rest' :
  (collect ty acc segs).2 = s' :: rest' → type s' ≠ ty.
Proof.
  revert acc. induction segs as [|s segs IH]; intros acc; simpl; [done|].
  case_bool_decide as Hty; [apply IH|]. simpl. by intros [= <- <-].
Qed.

(** One iteration of the outer loop on a segment that is not [equal],
    when the segments are merged runs with removed before added: the
    change-op it builds is not empty, and the next segment, if any, is
    [equal]. *)
Lemma change_step_shape s rest :
  type s ≠ equal →
  Forall (λ s, value s ≠ []) (s :: rest) →
  adjacent types_differ (s :: rest) →
  adjacent not_added_then_removed (s :: rest) →
  let c1 := collect removed [] (s :: rest) in
  let c2 := collect added [] c1.2 in
  (c1.1 ≠ [] ∨ c2.1 ≠ [])
  ∧ (∃ taken, s :: rest = taken ++ c2.2)
  ∧ ∀ s', head c2.2 = Some s' → type s' = equal.
Proof.
  intros Hne Hval Hdiff Hord c1 c2.
  destruct (collect_spec removed [] (s :: rest)) as (t1 & H1 & Hall1 & Hacc1).
  destruct (collect_spec added [] c1.2) as (t2 & H2 & Hall2 & Hacc2).
  fold c1 in H1, Hacc1. fold c2 in H2, Hacc2.
  assert (s :: rest = (t1 ++ t2) ++ c2.2) as Hsplit.
  { rewrite <- app_assoc, <- H2. done. }
  assert (t1 ++ t2 ≠ []) as Htaken.
  { intros Hnil. destruct (group_change_step s rest Hne) as (Hlen & _ & _).
    fold c1 c2 in Hlen. rewrite Hnil in Hsplit. simpl in Hsplit.
    rewrite <- Hsplit in Hlen. simpl in Hlen. lia. }
  split_and!.
  - destruct t1 as [|s1 t1].
    + right. destruct t2 as [|s2 t2]; [done|].
      simpl in Hsplit. injection Hsplit as <- _.
      rewrite Hacc2. simpl. apply Forall_cons in Hval as [Hs _].
      by destruct (value s).
    + left. simpl in Hsplit. injection Hsplit as <- _.
      rewrite Hacc1. simpl. apply Forall_cons in Hval as [Hs _].
      by destruct (value s).
  - by exists (t1 ++ t2).
  - intros s' [rest' Hs']%head_Some.
    pose proof (collect_stop added [] c1.2 s' rest' Hs') as Hnadd.
    assert (type s' ≠ removed) as Hnrem.
    { destruct t2 as [|s2 t2] using rev_ind.
      - simpl in H2. rewrite <- H2 in Hs'. by eapply collect_stop.
      - clear IHt2. rewrite Hsplit, Hs', app_assoc, <- app_assoc in Hord.
        apply adjacent_middle in Hord.
        apply Forall_app in Hall2 as [_ Hs2]. apply Forall_cons in Hs2 as [Hs2 _].
        intros Hrem. by apply Hord. }
    by destruct (type s').
Qed.

Lemma group_shape fuel : ∀ segs,
  Forall (λ s, value s ≠ []) segs →
  adjacent types_differ segs →
  adjacent not_added_then_removed segs →
  length segs ≤ fuel →
  Forall op_nonempty (group fuel segs [])
  ∧ adjacent kinds_differ (group fuel segs [])
  ∧ ∀ o, head (group fuel segs []) = Some o →
         ∃ s, head segs = Some s ∧ is_equal_op o = bool_decide (type s = equal).
Proof.
  induction fuel as [|fuel IH]; intros segs Hval Hdiff Hord Hf.
  { destruct segs; [|simpl in Hf; lia]. simpl. split_and!; [done| |done].
    by intros i x y. }
  destruct segs as [|s rest].
  { simpl. split_and!; [done| |done]. by intros i x y. }
  cbn [group]. simpl in Hf. case_bool_decide as Hty.
  - rewrite group_app. simpl.
    pose proof Hval as Hval'. apply Forall_cons in Hval' as [Hs Hrest].
    apply adjacent_cons_inv in Hdiff as [Hdiff Hhead].
    apply adjacent_cons_inv in Hord as [Hord _].
    destruct (IH rest Hrest Hdiff Hord ltac:(lia)) as (Hne & Hadj & Hfirst).
    split_and!.
    + by constructor.
    + apply adjacent_cons; [done|]. intros o (s2 & Hs2 & Ho)%Hfirst.
      specialize (Hhead s2 Hs2). unfold types_differ in Hhead.
      unfold kinds_differ. rewrite Ho. simpl.
      rewrite bool_decide_eq_false_2 by congruence. done.
    + intros o [= <-]. exists s. by rewrite bool_decide_eq_true_2.
  - destruct (change_step_shape s rest Hty Hval Hdiff Hord)
      as (Hnonempty & [taken Hsplit] & Hnext).
    destruct (group_change_step s rest Hty) as (Hlen & _ & _).
    destruct (collect removed [] (s :: rest)) as [r segs1].
    destruct (collect added [] segs1) as [ad segs2] eqn:Hc2.
    simpl in Hnonempty, Hsplit, Hnext, Hlen.
    rewrite Hc2 in Hnonempty, Hsplit, Hnext, Hlen.
    simpl in Hnonempty, Hsplit, Hnext, Hlen.
    assert (bool_decide (0 < length r) || bool_decide (0 < length ad) = true) as ->.
    { apply orb_true_iff. destruct Hnonempty as [Hr|Had]; [left|right];
        apply bool_decide_eq_true; [by destruct r; [|simpl; lia]
                                   |by destruct ad; [|simpl; lia]]. }
    rewrite group_app. simpl.
    rewrite Hsplit in Hval, Hdiff, Hord.
    apply Forall_app in Hval as [_ Hval2].
    apply adjacent_app_r in Hdiff. apply adjacent_app_r in Hord.
    destruct (IH segs2 Hval2 Hdiff Hord ltac:(lia)) as (Hne & Hadj & Hfirst).
    split_and!.
    + by constructor.
    + apply adjacent_cons; [done|]. intros o (s2 & Hs2 & Ho)%Hfirst.
      unfold kinds_differ. rewrite Ho. simpl.
      by rewrite bool_decide_eq_true_2 by by apply Hnext.
    + intros o [= <-]. exists s. by rewrite bool_decide_eq_false_2.
Qed.

Lemma diff_segments_shape x y :
  Forall (λ s, value s ≠ []) (diffWords x y)
  ∧ adjacent types_differ (diffWords x y)
  ∧ adjacent not_added_then_removed (diffWords x y).
Proof.
  unfold diffWords.
  destruct (tokens_nonempty_both x y) as [Hna Hnb].
  destruct (walk _ _ _ _ 0 0 []) as [[i j] segs] eqn:Hw.
  split_and!.
  - apply foldl_push_keeps; [intros; by apply push_values_nonempty|].
    apply foldl_push_keeps; [intros; by apply push_values_nonempty|].
    eapply (walk_keeps (Forall (λ s, value s ≠ []))); [|constructor|exact Hw].
    intros. by apply push_values_nonempty.
  - apply foldl_push_keeps; [intros; by apply push_types_differ|].
    apply foldl_push_keeps; [intros; by apply push_types_differ|].
    eapply (walk_keeps (adjacent types_differ)); [| |exact Hw].
    + intros. by apply push_types_differ.
    + by intros i' x' y'.
  - apply walk_removed_before_added in Hw as [Hadj Hlast];
      [|done|done|lia|by intros ???|done].
    apply foldl_push_keeps.
    { intros. by apply push_not_added_then_removed. }
    apply (foldl_push_keeps
             (λ segs, adjacent not_added_then_removed segs
                      ∧ ∀ x, last segs = Some x → type x ≠ added));
      [|done].
    intros segs0 v [Hadj0 Hlast0]. split.
    + apply push_not_added_then_removed; [done|]. by intros _.
    + destruct (decide (v = [])) as [->|Hv]; [done|].
      intros x0 Hx. by rewrite (push_last_type _ _ _ _ Hv Hx).
Qed.

Lemma groupOps_shape x y :
  Forall op_nonempty (groupOps x y) ∧ adjacent kinds_differ (groupOps x y).
Proof.
  unfold groupOps.
  destruct (diff_segments_shape x y) as (Hval & Hdiff & Hord).
  destruct (group_shape (length (diffWords x y)) (diffWords x y))
    as (Hne & Hadj & _); done.
Qed.

(** X8. No operation of [groupOps] is empty: an equal-op holds some text,
    and a change-op has text on at least one of its two sides. *)
Theorem no_operation_is_empty (before after : jsstring) :
  Forall op_nonempty (groupOps before after).
Proof. apply groupOps_shape. Qed.

(** X9. The operations of [groupOps] alternate: two change-ops are never
    neighbours, and neither are two equal-ops. Every replacement between
    two equal runs is one change-op. *)
Theorem operations_alternate (before after : jsstring) :
  adjacent kinds_differ (groupOps before after).
Proof. apply groupOps_shape. Qed.

Lemma no_change_ops_same_sides ops :
  changeIdxs ops = [] → op_before <$> ops = op_after <$> ops.
Proof.
  intros Hnil. apply list_eq. intros i. rewrite !list_lookup_fmap.
  destruct (ops !! i) as [[v|b a]|] eqn:Hop; [done| |done].
  assert (i ∈ changeIdxs ops) as Hin by (apply elem_of_changeIdxs; eauto).
  rewrite Hnil in Hin. by apply elem_of_nil in Hin.
Qed.

(** X10. There is something to decide exactly when the two texts differ:
    [groupOps before after] has no change-op if and only if
    [before = after]. *)
Theorem no_change_op_iff_same_text (before after : jsstring) :
  changeIdxs (groupOps before after) = [] ↔ before = after.
Proof.
  split.
  - intros H%no_change_ops_same_sides.
    pose proof (groupOps_before before after) as Hb.
    pose proof (groupOps_after before after) as Ha.
    rewrite H in Hb. congruence.
  - intros <-. rewrite groupOps_same. by case_bool_decide.
Qed.

(** ** The decision store *)

(** X11. The store a resolver starts with has one entry for every
    change-op, pending, and no other entry. Committing it gives the old
    text, and it counts as resolved only in the case without any
    change-op, where the store is empty. *)
Theorem initial_store_is_all_pending (ops : list Op) :
  (∀ idx, initDecisions ops !! idx
          = if decide (idx ∈ changeIdxs ops) then Some Resolver.pending else None)
  ∧ (commit ops (initDecisions ops)).1 = concat (op_before <$> ops)
  ∧ ((commit ops (initDecisions ops)).2 = true ↔ changeIdxs ops = []).
Proof.
  split_and!.
  - apply lookup_initDecisions.
  - apply commit_not_accepted, Forall_forall. intros idx Hidx.
    rewrite lookup_initDecisions, decide_True by done. done.
  - rewrite all_resolved_spec. split.
    + intros H. destruct (changeIdxs ops) as [|idx l] eqn:Hl; [done|].
      exfalso. apply (H idx Resolver.pending); [|done].
      rewrite lookup_initDecisions, Hl, decide_True; [done|left].
    + intros Hnil k d. rewrite lookup_initDecisions, Hnil.
      rewrite decide_False; [done|apply not_elem_of_nil].
Qed.

Lemma decide_all_cons ops prev idx v ds :
  decide_all ops prev ((idx, v) :: ds)
  = decide_all ops (<[idx := decision_of v]> prev) ds.
Proof. done. Qed.

Lemma decide_all_untouched ops ds : ∀ (prev : gmap nat Decision) k,
  k ∉ ds.*1 → decide_all ops prev ds !! k = prev !! k.
Proof.
  induction ds as [|[idx v] ds IH]; intros prev k Hk; [done|].
  rewrite decide_all_cons. simpl in Hk. apply not_elem_of_cons in Hk as [Hne Hk].
  rewrite IH by done. by apply lookup_insert_ne.
Qed.

Lemma decide_all_touched ops ds : ∀ (prev : gmap nat Decision) k,
  k ∈ ds.*1 → ∃ v, decide_all ops prev ds !! k = Some (decision_of v).
Proof.
  induction ds as [|[idx v] ds IH]; intros prev k Hk.
  { by apply elem_of_nil in Hk. }
  rewrite decide_all_cons. destruct (decide (k ∈ ds.*1)) as [Hin|Hnin].
  - by apply IH.
  - simpl in Hk. apply elem_of_cons in Hk as [->|?]; [|done].
    exists v. rewrite decide_all_untouched by done. apply lookup_insert_eq.
Qed.

(** X12. Starting from the initial store, the resolver reports resolved
    exactly when every change-op has been decided at least once. *)
Theorem resolved_iff_every_change_decided (ops : list Op) (ds : list (nat * Verdict)) :
  (commit ops (decide_all ops (initDecisions ops) ds)).2 = true
  ↔ ∀ idx, idx ∈ changeIdxs ops → idx ∈ ds.*1.
Proof.
  rewrite all_resolved_spec. split.
  - intros H idx Hidx. destruct (decide (idx ∈ ds.*1)) as [|Hnin]; [done|].
    exfalso. apply (H idx Resolver.pending); [|done].
    rewrite decide_all_untouched, lookup_initDecisions, decide_True by done. done.
  - intros H k d. destruct (decide (k ∈ ds.*1)) as [Hin|Hnin].
    + destruct (decide_all_touched ops ds (initDecisions ops) k Hin) as [v ->].
      intros [= <-]. apply decision_of_not_pending.
    + rewrite decide_all_untouched, lookup_initDecisions by done.
      case_decide as Hc; [|done]. by specialize (H k Hc).
Qed.

(** X13. The order in which different change-ops are decided does not
    matter: two runs of decisions that decide each operation at most once
    and are permutations of each other give the same store, hence the same
    merged text and the same resolution flag. *)
Theorem decision_order_is_irrelevant (ops : list Op) (prev : gmap nat Decision)
    (ds ds' : list (nat * Verdict)) :
  NoDup ds.*1 → ds ≡ₚ ds' →
  decide_all ops prev ds = decide_all ops prev ds'
  ∧ commit ops (decide_all ops prev ds) = commit ops (decide_all ops prev ds').
Proof.
  intros Hnd Hperm.
  assert (decide_all ops prev ds = decide_all ops prev ds') as ->; [|done].
  revert prev Hnd. induction Hperm as [|[i v] l l' _ IH|[i1 v1] [i2 v2] l|l1 l2 l3 H12 IH12 H23 IH23];
    intros prev Hnd.
  - done.
  - rewrite !decide_all_cons. apply IH. simpl in Hnd. by apply NoDup_cons in Hnd as [_ ?].
  - rewrite !decide_all_cons. f_equal. apply insert_insert_ne.
    simpl in Hnd. apply NoDup_cons in Hnd as [Hnin _].
    intros ->. apply Hnin. left.
  - rewrite IH12 by done. apply IH23.
    assert (l1.*1 ≡ₚ l2.*1) as Hp by (by apply fmap_Permutation).
    by rewrite <- Hp.
Qed.

Lemma decision_order_is_irrelevant_witness :
  let ops := groupOps (str "a b c") (str "x b y") in
  let ds := [(0, Accept); (2, Decline)] in
  let ds' := [(2, Decline); (0, Accept)] in
  NoDup ds.*1 ∧ ds ≡ₚ ds'
  ∧ commit ops (decide_all ops (initDecisions ops) ds)
    = commit ops (decide_all ops (initDecisions ops) ds').
Proof.
  intros ops ds ds'.
  assert (NoDup ds.*1) as Hnd
    by (apply (bool_decide_unpack (NoDup ds.*1)); vm_compute; exact I).
  assert (ds ≡ₚ ds') as Hp by apply perm_swap.
  split; [exact Hnd|]. split; [exact Hp|].
  exact (proj2 (decision_order_is_irrelevant ops (initDecisions ops) ds ds' Hnd Hp)).
Defined.

(** ** What the resolver shows *)

Lemma op_text_accepted decisions idx b a :
  decisions !! idx = Some accept → op_text decisions idx (ChangeOp b a) = a.
Proof.
  intros Hd. unfold op_text, render_op. rewrite Hd.
  rewrite fmap_app, concat_app, when_text by done. simpl.
  rewrite app_nil_r. symmetry. apply addCore_spec.
Qed.

Lemma op_text_declined decisions idx b a :
  decisions !! idx = Some decline → op_text decisions idx (ChangeOp b a) = b.
Proof.
  intros Hd. unfold op_text, render_op. rewrite Hd. simpl. by rewrite app_nil_r.
Qed.

Lemma op_text_equal decisions idx v : op_text decisions idx (EqualOp v) = v.
Proof. unfold op_text. simpl. by rewrite app_nil_r. Qed.

Lemma when_has_buttons t s k : Buttons k ∈ when t s → s = Buttons k.
Proof.
  unfold when. case_bool_decide; [by intros ?%elem_of_nil|].
  by intros ->%list_elem_of_singleton.
Qed.

Lemma render_op_buttons decisions idx op k :
  Buttons k ∈ render_op decisions idx op
  ↔ k = idx ∧ (∃ b a, op = ChangeOp b a)
    ∧ decisions !! idx ≠ Some accept ∧ decisions !! idx ≠ Some decline.
Proof.
  destruct op as [v|b a]; simpl.
  { split; [by intros ?%list_elem_of_singleton|by intros (_ & (? & ? & ?) & _)]. }
  assert (Buttons k ∈ when b (Struck (clipMiddle b) b)
            ++ when (take (length a - length (trailing_ws a)) a)
                    (Marked (take (length a - length (trailing_ws a)) a))
            ++ when (trailing_ws a) (Plain (trailing_ws a)) ++ [Buttons idx]
          ↔ k = idx) as Hpending.
  { rewrite !elem_of_app, list_elem_of_singleton. split.
    - intros [H|[H|[H|H]]]; try (by apply when_has_buttons in H); congruence.
    - intros ->. by repeat right. }
  destruct (decisions !! idx) as [[]|]; rewrite ?Hpending.
  - split; [intros ->|intros (-> & _)]; [split_and!|]; eauto.
  - split; [|by intros (_ & _ & ? & _)].
    intros [H|H]%elem_of_cons; [done|].
    by apply when_has_buttons in H.
  - split; [|by intros (_ & _ & _ & ?)]. by intros ?%list_elem_of_singleton.
  - split; [intros ->|intros (-> & _)]; [split_and!|]; eauto.
Qed.

(** X14. Once every change-op is accepted or declined, what the resolver
    shows is the merged text, and it shows no accept or decline button any
    more. *)
Theorem decided_display_is_merged_text (ops : list Op) (decisions : gmap nat Decision) :
  Forall (λ idx, decisions !! idx = Some accept ∨ decisions !! idx = Some decline)
         (changeIdxs ops) →
  concat (imap (op_text decisions) ops) = (commit ops decisions).1
  ∧ ∀ idx spans k, Resolver.render ops decisions !! idx = Some spans →
                   Buttons k ∉ spans.
Proof.
  rewrite Forall_forall. intros Hdec. split.
  - unfold commit. simpl. f_equal. apply imap_ext. intros idx [v|b a] Hop.
    { apply op_text_equal. }
    destruct (Hdec idx) as [Hd|Hd]; [apply elem_of_changeIdxs; eauto|..].
    + rewrite op_text_accepted by done. simpl. by rewrite Hd.
    + rewrite op_text_declined by done. simpl. by rewrite Hd.
  - intros idx spans k. unfold Resolver.render. rewrite list_lookup_imap.
    destruct (ops !! idx) as [op|] eqn:Hop; [|done]. simpl. intros [= <-].
    rewrite render_op_buttons. intros (-> & (b & a & ->) & Hna & Hnd).
    destruct (Hdec idx) as [Hd|Hd]; [apply elem_of_changeIdxs; eauto|done..].
Qed.

Lemma decided_display_is_merged_text_witness :
  let ops := groupOps (str "Dear Professor Smith, I am interested.")
                      (str "Dear Dr. Smith, I am very interested.") in
  let decisions : gmap nat Decision := <[1 := accept]> (<[3 := decline]> ∅) in
  Forall (λ idx, decisions !! idx = Some accept ∨ decisions !! idx = Some decline)
         (changeIdxs ops)
  ∧ concat (imap (op_text decisions) ops) = str "Dear Dr. Smith, I am interested."
  ∧ (commit ops decisions).1 = str "Dear Dr. Smith, I am interested.".
Proof.
  intros ops decisions.
  assert (Forall (λ idx, decisions !! idx = Some accept
                         ∨ decisions !! idx = Some decline) (changeIdxs ops)) as H.
  { assert (changeIdxs ops = [1; 3]) as -> by (vm_compute; reflexivity).
    apply Forall_cons. split; [left; vm_compute; reflexivity|].
    apply Forall_cons. split; [right; vm_compute; reflexivity|]. apply Forall_nil_2. }
  split; [exact H|].
  rewrite (proj1 (decided_display_is_merged_text ops decisions H)).
  split; by vm_compute.
Defined.

(** X15. The accept and decline buttons of an operation are shown exactly
    when it is a change-op that is neither accepted nor declined, and they
    carry the index of that operation. A decided change-op has no button:
    its decision cannot be given again. *)
Theorem buttons_exactly_for_undecided_changes (inst : Instance) (idx k : nat) :
  ((∃ spans, Resolver.render (ops inst) (decisions inst) !! idx = Some spans
             ∧ Buttons k ∈ spans)
   ↔ k = idx ∧ (∃ b a, ops inst !! idx = Some (ChangeOp b a))
     ∧ decisions inst !! idx ≠ Some accept
     ∧ decisions inst !! idx ≠ Some decline)
  ∧ (has_buttons inst idx = true
     ↔ ∃ spans, Resolver.render (ops inst) (decisions inst) !! idx = Some spans
                ∧ Buttons idx ∈ spans).
Proof.
  assert (∀ k, (∃ spans, Resolver.render (ops inst) (decisions inst) !! idx = Some spans
                  ∧ Buttons k ∈ spans)
          ↔ k = idx ∧ (∃ b a, ops inst !! idx = Some (ChangeOp b a))
            ∧ decisions inst !! idx ≠ Some accept
            ∧ decisions inst !! idx ≠ Some decline) as Hshown.
  { intros k'. unfold Resolver.render. rewrite list_lookup_imap.
    destruct (ops inst !! idx) as [op|] eqn:Hop; simpl.
    - split.
      + intros (spans & [= <-] & Hin). apply render_op_buttons in Hin
          as (-> & (b & a & ->) & ? & ?). eauto 10.
      + intros (-> & (b & a & [= ->]) & ? & ?). eexists. split; [done|].
        apply render_op_buttons. eauto 10.
    - split; [by intros (? & ? & _)|by intros (_ & (? & ? & ?) & _)]. }
  split; [apply Hshown|]. rewrite Hshown. unfold has_buttons.
  destruct (ops inst !! idx) as [[v|b a]|].
  - split; [done|by intros (_ & (? & ? & ?) & _)].
  - destruct (decisions inst !! idx) as [[]|].
    + split; [intros _|done]. split_and!; [done|by exists b, a|done..].
    + split; [done|]. by intros (_ & _ & ? & _).
    + split; [done|]. by intros (_ & _ & _ & ?).
    + split; [intros _|done]. split_and!; [done|by exists b, a|done..].
  - split; [done|by intros (_ & (? & ? & ?) & _)].
Qed.

(** X16. [clipMiddle] never returns more than 61 code units. A text of
    at most 60 code units without a line feed is returned as it is; a
    longer text is cut to its first 30 and its last 30 code units around an
    ellipsis; and a text of at most 30 code units that has a line feed comes
    back twice, around the ellipsis. *)
Theorem clipMiddle_shape (text : jsstring) :
  length (clipMiddle text) ≤ 61
  ∧ (length text ≤ 60 → 10%N ∉ text → clipMiddle text = text)
  ∧ (60 < length text →
     take 30 (clipMiddle text) = take 30 text
     ∧ clipMiddle text !! 30 = Some 8230%N
     ∧ drop 31 (clipMiddle text) = drop (length text - 30) text
     ∧ length (clipMiddle text) = 61)
  ∧ (length text ≤ 30 → 10%N ∈ text → clipMiddle text = text ++ [8230%N] ++ text).
Proof.
  unfold clipMiddle. split_and!.
  - destruct (_ && _) eqn:Hc.
    + apply andb_prop in Hc as [Hlen%bool_decide_eq_true _]. lia.
    + rewrite !length_app, length_take, length_drop. cbn [length]. lia.
  - intros Hlen Hnl.
    by rewrite (bool_decide_eq_true_2 (length text ≤ 60)),
               (bool_decide_eq_false_2 (10%N ∈ text)).
  - intros Hlen. rewrite (bool_decide_eq_false_2 (length text ≤ 60)) by lia. simpl.
    assert (length (take 30 text) = 30) as Ht by (rewrite length_take; lia).
    split_and!.
    + by rewrite take_app_length'.
    + by apply list_lookup_middle.
    + change (take 30 text ++ 8230%N :: drop (length text - 30) text)
        with (take 30 text ++ [8230%N] ++ drop (length text - 30) text).
      rewrite (app_assoc _ [_]). apply drop_app_length'.
      rewrite length_app, Ht. done.
    + rewrite length_app, Ht. cbn [length]. rewrite length_drop. lia.
  - intros Hlen Hnl. rewrite (bool_decide_eq_true_2 (10%N ∈ text)) by done.
    rewrite andb_false_r, take_ge by lia.
    by replace (length text - 30) with 0 by lia.
Qed.

Lemma clipMiddle_shape_witness :
  let text := [97; 10; 98]%N in
  length text ≤ 30 ∧ 10%N ∈ text
  ∧ clipMiddle text = [97; 10; 98; 8230; 97; 10; 98]%N.
Proof.
  intros text.
  assert (length text ≤ 30) as Hlen by (simpl; lia).
  assert (10%N ∈ text) as Hnl by (right; left).
  split; [exact Hlen|]. split; [exact Hnl|].
  exact (proj2 (proj2 (proj2 (clipMiddle_shape text))) Hlen Hnl).
Defined.

(** ** The controller and its resolvers *)

(** X17. In every state the component can reach, the resolver of a field
    is mounted exactly while the field is pending; it is then rendered with
    the current value of the field as old text, the proposed value as new
    text, and the key built from the two. *)
Theorem resolver_mounted_iff_pending (app : App) (f : Field) :
  reachable app →
  (is_Some (PerField.get f (resolvers app))
   ↔ PerField.get f (status (hooks app)) = pending)
  ∧ ∀ k inst, PerField.get f (resolvers app) = Some (k, inst) →
      ∃ pc, pendingChanges (hooks app) = Some pc
            ∧ before inst = value_of f (hooks app)
            ∧ after inst = PerField.get f pc
            ∧ k = key_of f (before inst) (after inst).
Proof.
  intros Hr. pose proof (reachable_consistent app Hr f) as Hc.
  pose proof (pending_needs_proposal app Hr) as Hp.
  split.
  - destruct (PerField.get f (resolvers app)) as [[k inst]|]; simpl in Hc.
    + destruct Hc as [(pc & _ & Hst & _)%element_Some _]. by split.
    + split; [by intros [? [=]]|]. intros Hst. exfalso.
      destruct Hp as [pc Hpc]; [apply anyPending_spec; eauto|].
      unfold element in Hc. rewrite Hpc, bool_decide_eq_true_2 in Hc; done.
  - intros k inst Hf. rewrite Hf in Hc. destruct Hc as [He _].
    apply element_Some in He as (pc & Hpc & _ & Hb & Ha & Hk). by exists pc.
Qed.

Lemma resolver_mounted_iff_pending_witness :
  ∃ app,
    run start [Incoming (PerField.mk (str "a@x.com") [] [])] = Some app
    ∧ reachable app
    ∧ is_Some (PerField.get Email (resolvers app))
    ∧ ¬ is_Some (PerField.get Subject (resolvers app)).
Proof.
  eexists.
  match goal with |- run ?a ?es = Some ?a' ∧ _ =>
    assert (run a es = Some a') as H by (vm_compute; reflexivity) end.
  pose proof (run_reachable _ _ _ reachable_start H) as Hr.
  split; [exact H|]. split; [exact Hr|]. split.
  - apply (proj1 (resolver_mounted_iff_pending _ Email Hr)). reflexivity.
  - intros Hs. apply (proj1 (resolver_mounted_iff_pending _ Subject Hr)) in Hs.
    discriminate Hs.
Defined.

(** What a decision does, step by step. *)
Lemma step_decide app f idx v app' :
  step app (Decide f idx v) = Some app' →
  ∃ k inst pc,
    PerField.get f (resolvers app) = Some (k, inst)
    ∧ pendingChanges (hooks app) = Some pc
    ∧ has_buttons inst idx = true
    ∧ app' = render
               (onChange f pc
                  (commit (ops inst) (<[idx := decision_of v]> (decisions inst))).1
                  (commit (ops inst) (<[idx := decision_of v]> (decisions inst))).2
                  (hooks app))
               (PerField.set f
                  (Some (k, {| before := before inst; after := after inst;
                               ops := ops inst;
                               decisions := <[idx := decision_of v]> (decisions inst) |}))
                  (resolvers app)).
Proof.
  unfold step. intros Hs.
  destruct (PerField.get f (resolvers app)) as [[k inst]|] eqn:Hf; [|done].
  destruct (pendingChanges (hooks app)) as [pc|] eqn:Hpc; [|done].
  destruct (has_buttons inst idx) eqn:Hb; [|done].
  unfold setDecision in Hs.
  destruct (commit (ops inst) (<[idx:=decision_of v]> (decisions inst)))
    as [merged allResolved] eqn:Hc.
  injection Hs as <-. exists k, inst, pc.
  split_and!; [done..|]. by rewrite Hc.
Qed.

(** A render keeps an instance as it is or mounts a fresh one. *)
Lemma render_keeps app s' olds :
  app_consistent app →
  (∀ f k inst, PerField.get f olds = Some (k, inst) →
     instance_ok inst
     ∧ ∃ inst0, PerField.get f (resolvers app) = Some (k, inst0)
                ∧ before inst = before inst0 ∧ after inst = after inst0) →
  (∀ f pc pc', pendingChanges (hooks app) = Some pc → pendingChanges s' = Some pc' →
     value_of f s' = value_of f (hooks app)
     ∨ PerField.get f pc' = PerField.get f pc) →
  ∀ f k' inst', PerField.get f (resolvers (render s' olds)) = Some (k', inst') →
    inst' = mount (before inst') (after inst')
    ∨ PerField.get f olds = Some (k', inst').
Proof.
  intros Happ Holds Hone f k' inst'. rewrite render_resolver.
  apply reconcile_ok.
  intros k inst Hold. destruct (Holds f k inst Hold) as (Hok & inst0 & H0 & Hb & Ha).
  split; [done|]. intros b a He.
  apply element_Some in He as (pc' & Hpc' & _ & -> & -> & Hk).
  specialize (Happ f). rewrite H0 in Happ. destruct Happ as [He0 _].
  apply element_Some in He0 as (pc & Hpc & _ & Hb0 & Ha0 & Hk0).
  rewrite Hb, Ha, Hb0, Ha0.
  assert (key_of f (value_of f s') (PerField.get f pc')
          = key_of f (value_of f (hooks app)) (PerField.get f pc)) as Hkey
    by congruence.
  destruct (Hone f pc pc' Hpc Hpc') as [Hv|Hp].
  - rewrite Hv in Hkey |- *. by apply key_of_inj_proposed in Hkey as ->.
  - rewrite Hp in Hkey |- *. by apply key_of_inj_current in Hkey as ->.
Qed.

Lemma mount_undecided b a : undecided (mount b a).
Proof.
  intros Hne. apply not_true_is_false. intros H.
  change (ops (mount b a)) with (groupOps b a) in *.
  change (decisions (mount b a)) with (initDecisions (groupOps b a)) in *.
  pose proof (proj1 (all_resolved_spec _ _) H) as H'. clear H. rename H' into H.
  destruct (changeIdxs (groupOps b a)) as [|idx l] eqn:Hl; [done|].
  apply (H idx Resolver.pending); [|done].
  rewrite lookup_initDecisions, Hl, decide_True; [done|left].
Qed.

(** Every event ends in a render against the mounted instances, as they
    were or, after a decision, with the new store in the resolver that was
    clicked. *)
Lemma step_render app e app' :
  app_consistent app → step app e = Some app' →
  ∃ olds,
    app' = render (hooks app') olds
    ∧ (∀ f k inst, PerField.get f olds = Some (k, inst) →
         instance_ok inst
         ∧ ∃ inst0, PerField.get f (resolvers app) = Some (k, inst0)
                    ∧ before inst = before inst0 ∧ after inst = after inst0)
    ∧ (olds = resolvers app
       ∨ ∃ f idx v k inst pc,
           e = Decide f idx v
           ∧ PerField.get f (resolvers app) = Some (k, inst)
           ∧ pendingChanges (hooks app) = Some pc
           ∧ hooks app'
             = onChange f pc
                 (commit (ops inst) (<[idx := decision_of v]> (decisions inst))).1
                 (commit (ops inst) (<[idx := decision_of v]> (decisions inst))).2
                 (hooks app)
           ∧ olds = PerField.set f
                      (Some (k, {| before := before inst; after := after inst;
                                   ops := ops inst;
                                   decisions := <[idx := decision_of v]> (decisions inst) |}))
                      (resolvers app)).
Proof.
  intros Happ Hs.
  assert (∀ f k inst, PerField.get f (resolvers app) = Some (k, inst) →
            instance_ok inst
            ∧ ∃ inst0, PerField.get f (resolvers app) = Some (k, inst0)
                       ∧ before inst = before inst0 ∧ after inst = after inst0)
    as Hsame.
  { intros f k inst Hf. split; [by eapply consistent_instance_ok|by exists inst]. }
  destruct e as [data|g idx v| | |g text].
  2:{ apply step_decide in Hs as (k0 & inst0 & pc & Hg & Hpc & Hb & ->).
      eexists. split; [reflexivity|]. split.
      - intros f k inst. destruct (decide (f = g)) as [->|Hne].
        + rewrite get_set_eq, Hg. intros Hw.
          apply (with_decisions_ok (<[idx:=decision_of v]> (decisions inst0))
                   (Some (k0, inst0)) k inst idx v Hw).
          intros k1 inst1 [= <- <-]. split_and!; [|done..].
          by eapply consistent_instance_ok.
        + rewrite get_set_ne by done. apply Hsame.
      - right. by exists g, idx, v, k0, inst0, pc. }
  all: simpl in Hs.
  - injection Hs as <-. exists (resolvers app). by split_and!; [| |left].
  - case_bool_decide; [done|]. injection Hs as <-.
    exists (resolvers app). by split_and!; [| |left].
  - case_bool_decide; [done|]. injection Hs as <-.
    exists (resolvers app). by split_and!; [| |left].
  - destruct (element g (hooks app)); [done|]. injection Hs as <-.
    exists (resolvers app). by split_and!; [| |left].
Qed.

Lemma step_undecided app e app' :
  app_consistent app →
  (∀ f k inst, PerField.get f (resolvers app) = Some (k, inst) → undecided inst) →
  step app e = Some app' →
  ∀ f k inst, PerField.get f (resolvers app') = Some (k, inst) → undecided inst.
Proof.
  intros Happ Hund Hs f k' inst' Hf.
  pose proof (step_consistent app e app' Happ Hs f) as [Hc' _].
  rewrite Hf in Hc'. destruct Hc' as [He' _].
  apply element_Some in He' as (pc' & Hpc' & Hst' & _).
  destruct (step_render app e app' Happ Hs) as (olds & Hr & Holds & Hwhich).
  assert (∀ f pc pc', pendingChanges (hooks app) = Some pc →
            pendingChanges (hooks app') = Some pc' →
            value_of f (hooks app') = value_of f (hooks app)
            ∨ PerField.get f pc' = PerField.get f pc) as Hone.
  { intros g pc pc0. by apply one_text_at_a_time with e. }
  rewrite Hr in Hf.
  destruct (render_keeps app (hooks app') olds Happ Holds Hone f k' inst' Hf)
    as [->|Hold]; [apply mount_undecided|].
  destruct Hwhich as [->|(g & idx & v & k & inst & pc & -> & Hg & Hpc & Hh & ->)].
  { by eapply Hund. }
  destruct (decide (f = g)) as [->|Hne].
  2:{ rewrite get_set_ne in Hold by done. by eapply Hund. }
  rewrite get_set_eq in Hold. injection Hold as <- <-.
  intros _. cbn [ops decisions].
  destruct (onChange_spec g pc
              (commit (ops inst) (<[idx:=decision_of v]> (decisions inst))).1
              (commit (ops inst) (<[idx:=decision_of v]> (decisions inst))).2
              (hooks app)) as (_ & _ & Hst & _).
  rewrite <- Hh in Hst. rewrite Hst, get_set_eq in Hst'. revert Hst'.
  destruct (commit _ _).2; [|done]. by case_bool_decide.
Qed.

Lemma reachable_undecided app :
  reachable app →
  ∀ f k inst, PerField.get f (resolvers app) = Some (k, inst) → undecided inst.
Proof.
  induction 1 as [|app e app' Hr IH Hs]; [by intros []|].
  apply (step_undecided app e app'); [by apply reachable_consistent|done..].
Qed.

(** X18. In every state the component can reach, a mounted resolver that
    has a change-op has at least one change-op still pending: a field whose
    change-ops are all decided does not keep its resolver. *)
Theorem mounted_resolver_has_a_pending_change (app : App) (f : Field)
    (k : jsstring) (inst : Instance) :
  reachable app → PerField.get f (resolvers app) = Some (k, inst) →
  changeIdxs (ops inst) ≠ [] →
  ∃ idx, idx ∈ changeIdxs (ops inst)
         ∧ decisions inst !! idx = Some Resolver.pending.
Proof.
  intros Hr Hf Hne.
  pose proof (reachable_undecided app Hr f k inst Hf Hne) as Hund.
  pose proof (reachable_consistent app Hr f) as Hc. rewrite Hf in Hc.
  destruct Hc as [_ [_ Hdom]].
  destruct (decide (Exists (λ idx, decisions inst !! idx = Some Resolver.pending)
                           (changeIdxs (ops inst)))) as [Hex|Hnex].
  { apply Exists_exists in Hex as (idx & ? & ?). eauto. }
  exfalso. apply not_Exists_Forall in Hnex; [|intros ?; apply _].
  rewrite Forall_forall in Hnex.
  assert ((commit (ops inst) (decisions inst)).2 = true) as Hres; [|congruence].
  apply all_resolved_spec. intros i d Hi ->.
  apply (Hnex i); [|done]. apply Hdom. by eexists.
Qed.

Lemma mounted_resolver_has_a_pending_change_witness :
  ∃ app k inst,
    run start [Edit Email (str "a b c");
               Incoming (PerField.mk (str "x b y") [] []);
               Decide Email 2 Decline] = Some app
    ∧ PerField.get Email (resolvers app) = Some (k, inst)
    ∧ changeIdxs (ops inst) = [0; 2]
    ∧ decisions inst !! 2 = Some decline
    ∧ ∃ idx, idx ∈ changeIdxs (ops inst)
             ∧ decisions inst !! idx = Some Resolver.pending.
Proof.
  do 3 eexists.
  match goal with |- run ?a ?es = Some ?a' ∧ _ =>
    assert (run a es = Some a') as Hrun by (vm_compute; reflexivity) end.
  pose proof (run_reachable _ _ _ reachable_start Hrun) as Hr.
  split; [exact Hrun|].
  match goal with |- ?g = Some (?k, ?i) ∧ _ =>
    assert (g = Some (k, i)) as Hf by (vm_compute; reflexivity) end.
  split; [exact Hf|]. split; [vm_compute; reflexivity|].
  split; [vm_compute; reflexivity|].
  apply (mounted_resolver_has_a_pending_change _ _ _ _ Hr Hf). by vm_compute.
Defined.

Lemma single_change_pending inst b a :
  instance_ok inst → undecided inst → ops inst = [ChangeOp b a] →
  decisions inst !! 0 = Some Resolver.pending
  ∧ ∀ k, is_Some (decisions inst !! k) → k = 0.
Proof.
  intros [_ Hdom] Hund Hops.
  assert (∀ k, k ∈ changeIdxs (ops inst) ↔ k = 0) as Hidx.
  { intros k. rewrite elem_of_changeIdxs, Hops. split.
    - intros (b' & a' & Hk). by destruct k.
    - intros ->. eauto. }
  assert (∀ k, is_Some (decisions inst !! k) → k = 0) as Hkeys.
  { intros k Hk. by apply Hidx, Hdom. }
  split; [|done].
  destruct (decisions inst !! 0) as [[]|] eqn:H0; [done| | |].
  - exfalso. enough ((commit (ops inst) (decisions inst)).2 = true) as Hres.
    { rewrite Hund in Hres; [done|]. rewrite Hops. done. }
    apply all_resolved_spec. intros k d Hk ->.
    rewrite (Hkeys k) in Hk by by eexists. congruence.
  - exfalso. enough ((commit (ops inst) (decisions inst)).2 = true) as Hres.
    { rewrite Hund in Hres; [done|]. rewrite Hops. done. }
    apply all_resolved_spec. intros k d Hk ->.
    rewrite (Hkeys k) in Hk by by eexists. congruence.
  - exfalso. assert (is_Some (decisions inst !! 0)) as [? ?]; [|congruence].
    apply Hdom, Hidx. done.
Qed.

(** X19. A proposal for an empty field is one change-op. In every state
    the component can reach, when the resolver of a field whose current
    value is empty is mounted with a non-empty proposed value, the accept
    button of operation 0 gives the field the proposed value and the status
    applied, the decline button leaves the field empty with the status
    dismissed, and either way the resolver is unmounted. *)
Theorem empty_field_is_resolved_by_one_decision (app : App) (f : Field)
    (k : jsstring) (inst : Instance) (v : Verdict) :
  reachable app → PerField.get f (resolvers app) = Some (k, inst) →
  before inst = [] → after inst ≠ [] →
  ∃ app',
    step app (Decide f 0 v) = Some app'
    ∧ value_of f (hooks app') = match v with Accept => after inst | Decline => [] end
    ∧ PerField.get f (status (hooks app'))
      = match v with Accept => applied | Decline => dismissed end
    ∧ PerField.get f (resolvers app') = None.
Proof.
  intros Hr Hf Hb Ha.
  pose proof (reachable_consistent app Hr f) as Hc. rewrite Hf in Hc.
  destruct Hc as [He Hok].
  pose proof (reachable_undecided app Hr f k inst Hf) as Hund.
  apply element_Some in He as (pc & Hpc & Hst & Hbv & Hap & _).
  assert (ops inst = [ChangeOp [] (after inst)]) as Hops.
  { destruct Hok as [-> _]. rewrite Hb, groupOps_nil_l.
    by rewrite bool_decide_eq_false_2. }
  destruct (single_change_pending inst _ _ Hok Hund Hops) as [H0 Hkeys].
  assert (commit (ops inst) (<[0 := decision_of v]> (decisions inst))
          = (match v with Accept => after inst | Decline => [] end, true)) as Hcommit.
  { unfold commit. f_equal.
    - rewrite Hops. simpl. rewrite lookup_insert_eq, app_nil_r. by destruct v.
    - apply bool_decide_eq_true. intros i d. rewrite lookup_insert. case_decide.
      + intros [= <-]. apply decision_of_not_pending.
      + intros Hi. exfalso. assert (i = 0) by (apply Hkeys; by eexists). lia. }
  assert (has_buttons inst 0 = true) as Hbtn.
  { unfold has_buttons. by rewrite Hops, H0. }
  eexists. split.
  { unfold step. rewrite Hf, Hpc, Hbtn. unfold setDecision. rewrite Hcommit. done. }
  destruct (onChange_spec f pc (match v with Accept => after inst | Decline => [] end)
              true (hooks app)) as (Hval & _ & Hstatus & _).
  assert (PerField.get f (status (onChange f pc
            (match v with Accept => after inst | Decline => [] end) true (hooks app)))
          = match v with Accept => applied | Decline => dismissed end) as Hst'.
  { rewrite Hstatus, get_set_eq, <- Hap. destruct v.
    - by rewrite bool_decide_eq_true_2.
    - by rewrite bool_decide_eq_false_2. }
  split_and!; [done|done|].
  rewrite render_resolver. unfold element.
  rewrite Hst'.
  destruct v; rewrite bool_decide_eq_false_2 by done;
    by destruct (pendingChanges (onChange _ _ _ _ _)).
Qed.

Lemma empty_field_is_resolved_by_one_decision_witness :
  ∃ app k inst,
    run start [Incoming (PerField.mk (str "a@x.com") [] [])] = Some app
    ∧ PerField.get Email (resolvers app) = Some (k, inst)
    ∧ ∃ app', step app (Decide Email 0 Accept) = Some app'
              ∧ recipient (hooks app') = str "a@x.com"
              ∧ PerField.email (status (hooks app')) = applied.
Proof.
  do 3 eexists.
  match goal with |- run ?a ?es = Some ?a' ∧ _ =>
    assert (run a es = Some a') as Hrun by (vm_compute; reflexivity) end.
  pose proof (run_reachable _ _ _ reachable_start Hrun) as Hr.
  split; [exact Hrun|].
  match goal with |- ?g = Some (?k, ?i) ∧ _ =>
    assert (g = Some (k, i)) as Hf by (vm_compute; reflexivity) end.
  split; [exact Hf|].
  destruct (empty_field_is_resolved_by_one_decision _ _ _ _ Accept Hr Hf
              eq_refl ltac:(by vm_compute)) as (app' & Hs & Hv & Hst & _).
  exists app'. split; [exact Hs|]. split; [exact Hv|exact Hst].
Defined.

(** X20. The fields are resolved independently: in every state the
    component can reach, a decision on an operation of one field changes
    neither the value, nor the status, nor the resolver (operations and
    decisions) of another field. *)
Theorem decision_leaves_other_fields_alone (app app' : App) (f g : Field)
    (idx : nat) (v : Verdict) :
  reachable app → step app (Decide f idx v) = Some app' → g ≠ f →
  value_of g (hooks app') = value_of g (hooks app)
  ∧ PerField.get g (status (hooks app')) = PerField.get g (status (hooks app))
  ∧ PerField.get g (resolvers app') = PerField.get g (resolvers app).
Proof.
  intros Hr Hs Hne.
  pose proof (reachable_consistent app Hr g) as Hc.
  apply step_decide in Hs as (k & inst & pc & Hf & Hpc & Hb & ->).
  set (merged := (commit _ _).1). set (allResolved := (commit _ _).2).
  destruct (onChange_spec f pc merged allResolved (hooks app))
    as (_ & Hval & Hst & Hp).
  cbn [hooks render]. rewrite render_resolver, get_set_ne by done.
  assert (PerField.get g (status (onChange f pc merged allResolved (hooks app)))
          = PerField.get g (status (hooks app))) as Hstg.
  { rewrite Hst. by apply get_set_ne. }
  split_and!; [by apply Hval|done|].
  unfold element. rewrite Hp, Hstg, (Hval g Hne).
  destruct (_ && _) eqn:Hdone.
  - apply andb_prop in Hdone as [_ Hnp%negb_true_iff].
    destruct (PerField.get g (resolvers app)) as [[kg ig]|]; [|done].
    exfalso. destruct Hc as [(? & _ & Hpg & _)%element_Some _].
    assert (anyPending (PerField.set f
              (if allResolved
               then if bool_decide (merged = PerField.get f pc)
                    then applied else dismissed
               else pending) (status (hooks app))) = true) as Hany; [|congruence].
    apply anyPending_spec. exists g. by rewrite get_set_ne.
  - rewrite Hpc. destruct (PerField.get g (resolvers app)) as [[kg ig]|].
    + destruct Hc as [He [Hops _]]. unfold element in He. rewrite Hpc in He.
      destruct (bool_decide _); [|done]. injection He as <- Hbg Hag.
      simpl. rewrite bool_decide_eq_true_2 by done.
      rewrite Hbg, Hag. by rewrite rerender_same.
    + unfold consistent, element in Hc. rewrite Hpc in Hc.
      by destruct (bool_decide _).
Qed.

Lemma decision_leaves_other_fields_alone_witness :
  ∃ app app',
    run start [Incoming (PerField.mk (str "a@x.com") (str "Hello there") [])]
    = Some app
    ∧ step app (Decide Email 0 Accept) = Some app'
    ∧ PerField.subject (status (hooks app')) = pending
    ∧ PerField.get Subject (resolvers app') = PerField.get Subject (resolvers app).
Proof.
  do 2 eexists.
  match goal with |- run ?a ?es = Some ?a' ∧ _ =>
    assert (run a es = Some a') as Hrun by (vm_compute; reflexivity) end.
  pose proof (run_reachable _ _ _ reachable_start Hrun) as Hr.
  split; [exact Hrun|].
  match goal with |- step ?a ?e = Some ?a' ∧ _ =>
    assert (step a e = Some a') as Hs by (vm_compute; reflexivity) end.
  split; [exact Hs|].
  destruct (decision_leaves_other_fields_alone _ _ Email Subject 0 Accept Hr Hs
              ltac:(discriminate)) as (_ & Hst & Hres).
  split; [|exact Hres]. rewrite (Hst : PerField.subject _ = _). reflexivity.
Defined.

(** X21. After [acceptAll] or [declineAll] nothing is left to resolve: no
    proposal is stored, no resolver is mounted, no decision button and no
    bulk button can be used, and every field can be typed in again. *)
Theorem bulk_operation_ends_the_proposal (app app' : App) (e : Event) :
  step app e = Some app' → e = AcceptAll ∨ e = DeclineAll →
  pendingChanges (hooks app') = None
  ∧ resolvers app' = PerField.mk None None None
  ∧ (∀ e', resolving e' = true → step app' e' = None)
  ∧ ∀ f text, is_Some (step app' (Edit f text)).
Proof.
  intros Hs He.
  assert (pendingChanges (hooks app') = None
          ∧ resolvers app' = PerField.mk None None None) as [Hp Hres].
  { destruct He as [-> | ->]; simpl in Hs; case_bool_decide as Hpc; try done;
      injection Hs as <-; destruct (pendingChanges (hooks app)) as [pc|] eqn:E;
      try done; unfold acceptAll, declineAll; rewrite E; done. }
  split_and!; [done..| |].
  - intros [data|f idx v| | |f text] Hr; try done; simpl.
    + rewrite Hres. by destruct f.
    + by rewrite Hp.
    + by rewrite Hp.
  - intros f text. simpl. unfold element. rewrite Hp. by eexists.
Qed.

Lemma bulk_operation_ends_the_proposal_witness :
  ∃ app app',
    run start [Incoming (PerField.mk (str "a@x.com") (str "Hi") (str "Dear all"))]
    = Some app
    ∧ step app DeclineAll = Some app'
    ∧ step app' AcceptAll = None
    ∧ step app' (Decide Email 0 Accept) = None.
Proof.
  do 2 eexists. split; [vm_compute; reflexivity|].
  match goal with |- step ?a ?e = Some ?a' ∧ _ =>
    assert (step a e = Some a') as Hs by (vm_compute; reflexivity) end.
  split; [exact Hs|].
  destruct (bulk_operation_ends_the_proposal _ _ DeclineAll Hs ltac:(by right))
    as (_ & _ & Hnone & _).
  split; apply Hnone; reflexivity.
Defined.

(** X22. A delivered proposal replaces what was there: the statuses are
    computed anew from the current values, whatever they were. A second
    proposal erases the first; a proposal delivered again after
    [declineAll] is pending again as if it had never been declined; and a
    proposal delivered again after [acceptAll] is stored with every field
    unchanged. *)
Theorem delivery_overrides_earlier_resolution (s : State) (d1 d2 : ContactData) :
  incoming d2 (incoming d1 s) = incoming d2 s
  ∧ incoming d2 (declineAll (incoming d1 s)) = incoming d2 s
  ∧ incoming d2 (acceptAll (incoming d2 s))
    = {| recipient := PerField.email d2; subject := PerField.subject d2;
         body := PerField.text d2; pendingChanges := Some d2;
         status := PerField.mk unchanged unchanged unchanged |}.
Proof.
  split_and!; [done..|].
  unfold incoming, acceptAll. simpl.
  by rewrite !bool_decide_eq_false_2 by (by intros H; apply H).
Qed.

Lemma first_separator (c : N) v : ∀ v' p p',
  c ∉ v → c ∉ v' → v ++ c :: p = v' ++ c :: p' → v = v' ∧ p = p'.
Proof.
  induction v as [|x v IH]; intros [|x' v'] p p' Hv Hv' Heq; simpl in Heq.
  - by injection Heq as ->.
  - injection Heq as <- _. exfalso. apply Hv'. left.
  - injection Heq as -> _. exfalso. apply Hv. left.
  - injection Heq as <- Heq. apply not_elem_of_cons in Hv as [_ Hv].
    apply not_elem_of_cons in Hv' as [_ Hv'].
    by destruct (IH v' p p' Hv Hv' Heq) as [-> ->].
Qed.

(** X23. The key of a resolver tells its two texts apart when one of them
    is known, and altogether when the current values have no vertical bar.
    With a vertical bar two different pairs of texts can have the same
    key. *)
Theorem resolver_key_separates_texts (f : Field) (v p : jsstring) :
  (∀ v', key_of f v p = key_of f v' p → v = v')
  ∧ (∀ p', key_of f v p = key_of f v p' → p = p')
  ∧ (∀ v' p', 124%N ∉ v → 124%N ∉ v' →
       key_of f v p = key_of f v' p' → v = v' ∧ p = p')
  ∧ ∀ x, key_of f (v ++ str "|" ++ x) p = key_of f v (x ++ str "|" ++ p).
Proof.
  split_and!.
  - intros v'. apply key_of_inj_current.
  - intros p'. apply key_of_inj_proposed.
  - intros v' p' Hv Hv'. unfold key_of. intros H%app_inv_head.
    by apply (first_separator 124%N).
  - intros x. unfold key_of. by rewrite <- !app_assoc.
Qed.

Lemma resolver_key_separates_texts_witness :
  let v := str "a@x.com" in
  let v' := str "b@x.com" in
  (124%N ∉ v) ∧ (124%N ∉ v')
  ∧ (key_of Email v (str "c") = key_of Email v' (str "c") → v = v').
Proof.
  intros v v'.
  assert (124%N ∉ v) as Hv by (by apply (bool_decide_unpack (124%N ∉ v)); vm_compute).
  assert (124%N ∉ v') as Hv' by (by apply (bool_decide_unpack (124%N ∉ v')); vm_compute).
  split; [exact Hv|]. split; [exact Hv'|]. intros Hk.
  exact (proj1 (proj1 (proj2 (proj2 (resolver_key_separates_texts Email v (str "c"))))
                  v' (str "c") Hv Hv' Hk)).
Defined.

(** X24. Outside the states in which every field is unchanged, the
    proposal is stored exactly while a field is pending: in every state
    the component can reach in which some field is pending, applied or
    dismissed, the stored proposal is non-null if and only if at least one
    field is pending. *)
Theorem proposal_stored_iff_pending (app : App) :
  reachable app →
  status (hooks app) ≠ PerField.mk unchanged unchanged unchanged →
  (is_Some (pendingChanges (hooks app))
   ↔ anyPending (status (hooks app)) = true).
Proof.
  intros Hr Hst. split.
  - intros Hp. by destruct (stored_proposal_cases app Hr Hp).
  - by apply pending_needs_proposal.
Qed.

Lemma proposal_stored_iff_pending_witness :
  let data : ContactData := PerField.mk (str "a@x.com") (str "Hello") [] in
  ∃ app1 app2,
    run start [Incoming data; Decide Email 0 Resolver.Accept;
               Edit Text (str "typed")] = Some app1
    ∧ run app1 [Decide Subject 0 Resolver.Decline;
                Edit Subject (str "typed")] = Some app2
    ∧ status (hooks app1) = PerField.mk applied pending unchanged
    ∧ status (hooks app2) = PerField.mk applied dismissed unchanged
    ∧ is_Some (pendingChanges (hooks app1))
    ∧ ¬ is_Some (pendingChanges (hooks app2)).
Proof.
  intros data. eexists. eexists.
  match goal with |- run ?a ?es = Some ?a' ∧ _ =>
    assert (run a es = Some a') as H1 by (vm_compute; reflexivity) end.
  split; [exact H1|].
  match goal with |- run ?a ?es = Some ?a' ∧ _ =>
    assert (run a es = Some a') as H2 by (vm_compute; reflexivity) end.
  split; [exact H2|].
  pose proof (run_reachable _ _ _ reachable_start H1) as Hr1.
  pose proof (run_reachable _ _ _ Hr1 H2) as Hr2.
  split; [reflexivity|]. split; [reflexivity|]. split.
  - exact (proj2 (proposal_stored_iff_pending _ Hr1 ltac:(discriminate)) eq_refl).
  - intros Hp.
    pose proof (proj1 (proposal_stored_iff_pending _ Hr2 ltac:(discriminate)) Hp).
    discriminate.
Defined.
